(** * routeutil: a hash-based client side router

    A shallow embedding of [src/dist/routeutil.js] (the bundled form of
    [src/routeutil.js]): the pattern compiler [route], the placeholder helper
    [param], and the [Router] class with its registry, its resolution
    procedure [#exec] and its activation and deactivation.

    JavaScript strings are [string]s, arrays are lists, [undefined] is
    [None], a thrown exception is the [Throw] completion.

    What the library takes from its environment is modelled next to it:
    - regular expressions, by a parser and a backtracking matcher for the
      pattern syntax the library produces and documents; the properties of
      the router that do not look into a pattern are proved for any
      [match] function;
    - the page, by the fragment, the [popstate] listeners of the router and
      the navigation signals the host has yet to deliver;
    - the handlers, which are opaque callbacks: a handler is known by its
      reference, a call is recorded with its argument, and it returns or
      throws; a handler is taken not to call back into the router
      ([exec_calling_back] tells what [#exec] does when handlers do call the
      registration methods). *)

From Stdlib Require Import String Ascii List Bool Arith Lia.
Import ListNotations.
Open Scope string_scope.

(** ** Completions *)

(** The two exceptions [route] can raise: the [Error] it throws itself, with
    its message, and the [TypeError] of reading a property of [undefined]. *)
Inductive exn : Type :=
| Error (message : string)
| TypeError.

Inductive completion (A : Type) : Type :=
| Return (a : A)
| Throw (e : exn).
Arguments Return {A} a.
Arguments Throw {A} e.

(** ** Strings *)

Definition chars (s : string) : list ascii := list_ascii_of_string s.
Definition text (l : list ascii) : string := string_of_list_ascii l.

(** [Array.prototype.join("")]. *)
Definition join (buf : list string) : string := String.concat "" buf.

(** [String.prototype.startsWith]. *)
Fixpoint startsWith (s p : string) {struct p} : bool :=
  match p with
  | EmptyString => true
  | String c p' =>
      match s with
      | String d s' => Ascii.eqb d c && startsWith s' p'
      | EmptyString => false
      end
  end.

Definition dquote : string := String (ascii_of_nat 34) EmptyString.

(** ** Regular expression objects *)

(** A [RegExp] object: the pattern text it was built from (the
    [[OriginalSource]] slot), its [global] flag, and its other flags, as
    the [flags] accessor spells them ([i], [m], [s], [u], [y]). *)
Record RegExp : Type := mkRegExp {
  re_pattern : string;
  re_global : bool;
  re_flags : string
}.

(** [new RegExp(pattern)], without flags. *)
Definition new_RegExp (pattern : string) : RegExp :=
  {| re_pattern := pattern; re_global := false; re_flags := "" |}.

Definition is_line_terminator (c : ascii) : bool :=
  Ascii.eqb c (ascii_of_nat 10) || Ascii.eqb c (ascii_of_nat 13).

Definition escape_line_terminator (c : ascii) : list ascii :=
  if Ascii.eqb c (ascii_of_nat 10) then chars "\n" else chars "\r".

(** The [source] accessor returns the pattern text in a form that can be
    written between slashes (EscapeRegExpPattern): as the engines do it, a
    slash outside a character class and a line terminator receive a
    backslash, an escaped character is kept, and the empty pattern reads
    [(?:)]. *)
Fixpoint EscapeRegExpSource (in_class : bool) (src : list ascii) : list ascii :=
  match src with
  | [] => []
  | c :: rest =>
      if is_line_terminator c then
        (escape_line_terminator c ++ EscapeRegExpSource in_class rest)%list
      else if Ascii.eqb c "\" then
        match rest with
        | d :: rest' =>
            if is_line_terminator d then
              (escape_line_terminator d ++ EscapeRegExpSource in_class rest')%list
            else c :: d :: EscapeRegExpSource in_class rest'
        | [] => [c]
        end
      else if Ascii.eqb c "/" && negb in_class then
        "\"%char :: c :: EscapeRegExpSource in_class rest
      else if Ascii.eqb c "[" then c :: EscapeRegExpSource true rest
      else if Ascii.eqb c "]" then c :: EscapeRegExpSource false rest
      else c :: EscapeRegExpSource in_class rest
  end.

Definition source (r : RegExp) : string :=
  match re_pattern r with
  | EmptyString => "(?:)"
  | p => text (EscapeRegExpSource false (chars p))
  end.

(** ** The pattern compiler *)

(** The characters of the class [[.*+?^${}()|[\]\\]]. *)
Definition special_chars : list ascii := chars ".*+?^${}()|[]\".

Definition is_special (c : ascii) : bool := existsb (Ascii.eqb c) special_chars.

(** [val.replace(/[.*+?^${}()|[\]\\]/g, "\\$&")]: every character of the
    class is replaced by a backslash followed by itself. *)
Fixpoint escapeRegex (val : string) : string :=
  match val with
  | EmptyString => EmptyString
  | String c rest =>
      if is_special c then String "\" (String c (escapeRegex rest))
      else String c (escapeRegex rest)
  end.

(** An interpolated value of the template: [string | RegExp]. *)
Inductive Value : Type :=
| VString (s : string)
| VRegExp (r : RegExp).

(** What one turn of the loop pushes for [values[i]]; nothing when the index
    is past the end of [values] ([undefined]). *)
Definition push_value (val : option Value) : list string :=
  match val with
  | Some (VString s) => [escapeRegex s]
  | Some (VRegExp r) => [source r]
  | None => []
  end.

(** The loop [for (let i = 0; i < segments.length; i++)], from index [i] on,
    over the segments still to be visited: the strings pushed onto [buf]. *)
Fixpoint route_loop (i : nat) (segments : list string) (values : list Value)
  : list string :=
  match segments with
  | [] => []
  | seg :: rest =>
      (escapeRegex seg :: push_value (nth_error values i)
         ++ route_loop (S i) rest values)%list
  end.

Definition route_error (buf : list string) : exn :=
  Error ("Routes must start with " ++ dquote ++ "#/" ++ dquote
           ++ "; route is " ++ join buf).

(** [route]: the loop, the test of [buf[0]] (a [TypeError] when [buf] is
    empty, [buf[0]] being [undefined]), and [new RegExp].  The [SyntaxError]
    that [new RegExp] raises for a text that is not a pattern is not
    modelled: where a theorem says that [route] returns, the text is one of
    a pattern. *)
Definition route (segments : list string) (values : list Value)
  : completion RegExp :=
  let buf := route_loop 0 segments values in
  match buf with
  | [] => Throw TypeError
  | first :: _ =>
      if negb (startsWith first "#/") then Throw (route_error buf)
      else Return (new_RegExp ("^" ++ join buf ++ "$"))
  end.

(** [param]; as for [route], the [SyntaxError] of [new RegExp] for a name
    that no group can bear is not modelled, and the theorems about [param]
    take names that are identifiers. *)
Definition param (name : string) : RegExp :=
  new_RegExp ("(?<" ++ name ++ ">\w+)").

(** ** The matching engine

    [String.prototype.match] belongs to the language, not to the library.
    The properties of the router are proved for any [match] function, under
    the contract the language gives for its results where they need one.
    For the patterns the library produces and its documentation uses, the
    meaning of [match] is also given here, by a parser and a matcher:
    literal characters, escapes, [.], the classes [\d \w \s] and their
    complements, bracketed classes, [^] and [$], alternation, capturing
    (named or not) and non-capturing groups, and the quantifiers [* + ?],
    greedy or lazy, without other flags than [g].  A pattern outside this
    syntax has no parse here, and the engine stands for [match] on the
    patterns it parses only.  The matcher follows the backtracking semantics
    of the language definition, continuation for continuation. *)

Inductive char_set : Type := SetDigit | SetWord | SetSpace.

Inductive class_item : Type :=
| ItemChar (c : ascii)
| ItemRange (lo hi : ascii)
| ItemSet (complement : bool) (s : char_set).

Inductive node : Type :=
| Empty
| Char (c : ascii)
| Dot
| Class (invert : bool) (items : list class_item)
| LineStart
| LineEnd
| Seq (a b : node)
| Alt (a b : node)
| Group (capture : option (nat * option string)) (body : node)
| Repeat (min : nat) (max : option nat) (greedy : bool) (body : node).

Definition between (lo hi : nat) (c : ascii) : bool :=
  Nat.leb lo (nat_of_ascii c) && Nat.leb (nat_of_ascii c) hi.

Definition is_digit (c : ascii) : bool := between 48 57 c.

Definition is_word (c : ascii) : bool :=
  between 97 122 c || between 65 90 c || is_digit c || Ascii.eqb c "_".

Definition is_space (c : ascii) : bool := between 9 13 c || Ascii.eqb c " ".

Definition in_set (s : char_set) (c : ascii) : bool :=
  match s with
  | SetDigit => is_digit c
  | SetWord => is_word c
  | SetSpace => is_space c
  end.

Definition item_matches (c : ascii) (i : class_item) : bool :=
  match i with
  | ItemChar d => Ascii.eqb c d
  | ItemRange lo hi => between (nat_of_ascii lo) (nat_of_ascii hi) c
  | ItemSet complement s => xorb complement (in_set s c)
  end.

(** *** Parsing

    The pattern text is read from left to right with a stack of the groups
    that are open: each frame holds the alternatives already closed by a [|]
    and the terms of the alternative being read, both latest first. *)

Record frame : Type := mkFrame {
  f_capture : option (nat * option string);
  f_alts : list node;
  f_terms : list node
}.

Record pstate : Type := mkPstate {
  p_outer : list frame;
  p_cur : frame;
  p_next : nat;
  p_names : list string
}.

Inductive mode : Type :=
| InPattern
| InName (acc : list ascii)
| InClass (invert : bool) (items : list class_item).

Fixpoint sequence (terms : list node) : node :=
  match terms with
  | [] => Empty
  | [t] => t
  | t :: ts => Seq t (sequence ts)
  end.

Fixpoint disjunction (alts : list node) : node :=
  match alts with
  | [] => Empty
  | [a] => a
  | a :: rest => Alt a (disjunction rest)
  end.

Definition close_frame (f : frame) : node :=
  disjunction (rev (sequence (rev (f_terms f)) :: f_alts f)).

Definition push_term (t : node) (st : pstate) : pstate :=
  let f := p_cur st in
  {| p_outer := p_outer st;
     p_cur := {| f_capture := f_capture f; f_alts := f_alts f;
                 f_terms := t :: f_terms f |};
     p_next := p_next st; p_names := p_names st |}.

Definition next_alternative (st : pstate) : pstate :=
  let f := p_cur st in
  {| p_outer := p_outer st;
     p_cur := {| f_capture := f_capture f;
                 f_alts := sequence (rev (f_terms f)) :: f_alts f;
                 f_terms := [] |};
     p_next := p_next st; p_names := p_names st |}.

Definition open_group (capturing : bool) (name : option string) (st : pstate)
  : pstate :=
  {| p_outer := p_cur st :: p_outer st;
     p_cur := {| f_capture := if capturing then Some (p_next st, name) else None;
                 f_alts := []; f_terms := [] |};
     p_next := if capturing then S (p_next st) else p_next st;
     p_names := match name with
                | Some n => n :: p_names st
                | None => p_names st
                end |}.

Definition close_group (st : pstate) : option pstate :=
  match p_outer st with
  | [] => None
  | parent :: outer =>
      Some {| p_outer := outer;
              p_cur := {| f_capture := f_capture parent;
                          f_alts := f_alts parent;
                          f_terms := Group (f_capture (p_cur st))
                                           (close_frame (p_cur st))
                                       :: f_terms parent |};
              p_next := p_next st; p_names := p_names st |}
  end.

(** A quantifier applies to the term before it; a [?] after a quantifier
    makes that quantifier lazy. *)
Definition quantify (q : ascii) (st : pstate) : option pstate :=
  let f := p_cur st in
  let replace t ts :=
    Some {| p_outer := p_outer st;
            p_cur := {| f_capture := f_capture f; f_alts := f_alts f;
                        f_terms := t :: ts |};
            p_next := p_next st; p_names := p_names st |} in
  match f_terms f with
  | [] => None
  | LineStart :: _ => None
  | LineEnd :: _ => None
  | Repeat min max greedy body :: ts =>
      if Ascii.eqb q "?" && greedy then replace (Repeat min max false body) ts
      else None
  | t :: ts =>
      if Ascii.eqb q "*" then replace (Repeat 0 None true t) ts
      else if Ascii.eqb q "+" then replace (Repeat 1 None true t) ts
      else replace (Repeat 0 (Some 1) true t) ts
  end.

(** The character sets [\d \D \w \W \s \S]. *)
Definition escape_set (d : ascii) : option class_item :=
  if Ascii.eqb d "d" then Some (ItemSet false SetDigit)
  else if Ascii.eqb d "D" then Some (ItemSet true SetDigit)
  else if Ascii.eqb d "w" then Some (ItemSet false SetWord)
  else if Ascii.eqb d "W" then Some (ItemSet true SetWord)
  else if Ascii.eqb d "s" then Some (ItemSet false SetSpace)
  else if Ascii.eqb d "S" then Some (ItemSet true SetSpace)
  else None.

(** The character an escape stands for: a control escape, or the character
    itself when it is not a letter, a digit or an underscore. *)
Definition escape_char (d : ascii) : option ascii :=
  if Ascii.eqb d "n" then Some (ascii_of_nat 10)
  else if Ascii.eqb d "r" then Some (ascii_of_nat 13)
  else if Ascii.eqb d "t" then Some (ascii_of_nat 9)
  else if is_word d then None
  else Some d.

Definition escape_atom (d : ascii) : option node :=
  match escape_set d with
  | Some i => Some (Class false [i])
  | None => option_map Char (escape_char d)
  end.

Definition escape_item (d : ascii) : option class_item :=
  match escape_set d with
  | Some i => Some i
  | None => option_map ItemChar (escape_char d)
  end.

Definition is_quantifier (c : ascii) : bool :=
  Ascii.eqb c "*" || Ascii.eqb c "+" || Ascii.eqb c "?".

(** The items of [a-b] in a class, latest first: the range when both ends
    are single characters, in order; the two ends and the dash when one of
    them is a character set. *)
Definition class_range (a b : class_item) : option (list class_item) :=
  match a, b with
  | ItemChar lo, ItemChar hi =>
      if Nat.leb (nat_of_ascii lo) (nat_of_ascii hi)
      then Some [ItemRange lo hi]
      else None
  | _, _ => Some [b; ItemChar "-"; a]
  end.

Fixpoint parse_loop (m : mode) (st : pstate) (s : list ascii) {struct s}
  : option pstate :=
  match s with
  | [] => match m with InPattern => Some st | _ => None end
  | c :: rest =>
      match m with
      | InName acc =>
          if Ascii.eqb c ">" then
            let name := text (rev acc) in
            match acc with
            | [] => None
            | _ => if existsb (String.eqb name) (p_names st) then None
                   else parse_loop InPattern (open_group true (Some name) st) rest
            end
          else if is_word c then parse_loop (InName (c :: acc)) st rest
          else None
      | InClass invert items =>
          if Ascii.eqb c "]" then
            parse_loop InPattern (push_term (Class invert (rev items)) st) rest
          else if Ascii.eqb c "\" then
            match rest with
            | d :: r1 =>
                match escape_item d with
                | Some a =>
                    match r1 with
                    | dash :: h :: r2 =>
                        if Ascii.eqb dash "-" && negb (Ascii.eqb h "]") then
                          if Ascii.eqb h "\" then
                            match r2 with
                            | e :: r3 =>
                                match escape_item e with
                                | Some b =>
                                    match class_range a b with
                                    | Some its =>
                                        parse_loop
                                          (InClass invert (its ++ items)%list)
                                          st r3
                                    | None => None
                                    end
                                | None => None
                                end
                            | [] => None
                            end
                          else
                            match class_range a (ItemChar h) with
                            | Some its =>
                                parse_loop (InClass invert (its ++ items)%list)
                                           st r2
                            | None => None
                            end
                        else parse_loop (InClass invert (a :: items)) st r1
                    | _ => parse_loop (InClass invert (a :: items)) st r1
                    end
                | None => None
                end
            | [] => None
            end
          else
            match rest with
            | dash :: h :: r2 =>
                if Ascii.eqb dash "-" && negb (Ascii.eqb h "]") then
                  if Ascii.eqb h "\" then
                    match r2 with
                    | e :: r3 =>
                        match escape_item e with
                        | Some b =>
                            match class_range (ItemChar c) b with
                            | Some its =>
                                parse_loop (InClass invert (its ++ items)%list)
                                           st r3
                            | None => None
                            end
                        | None => None
                        end
                    | [] => None
                    end
                  else
                    match class_range (ItemChar c) (ItemChar h) with
                    | Some its =>
                        parse_loop (InClass invert (its ++ items)%list) st r2
                    | None => None
                    end
                else parse_loop (InClass invert (ItemChar c :: items)) st rest
            | _ => parse_loop (InClass invert (ItemChar c :: items)) st rest
            end
      | InPattern =>
          if Ascii.eqb c "\" then
            match rest with
            | d :: rest' =>
                match escape_atom d with
                | Some t => parse_loop InPattern (push_term t st) rest'
                | None => None
                end
            | [] => None
            end
          else if Ascii.eqb c "(" then
            match rest with
            | q :: rest' =>
                if Ascii.eqb q "?" then
                  match rest' with
                  | k :: rest'' =>
                      if Ascii.eqb k ":" then
                        parse_loop InPattern (open_group false None st) rest''
                      else if Ascii.eqb k "<" then
                        parse_loop (InName []) st rest''
                      else None
                  | [] => None
                  end
                else parse_loop InPattern (open_group true None st) rest
            | [] => None
            end
          else if Ascii.eqb c ")" then
            match close_group st with
            | Some st' => parse_loop InPattern st' rest
            | None => None
            end
          else if Ascii.eqb c "|" then
            parse_loop InPattern (next_alternative st) rest
          else if is_quantifier c then
            match quantify c st with
            | Some st' => parse_loop InPattern st' rest
            | None => None
            end
          else if Ascii.eqb c "[" then
            match rest with
            | h :: rest' =>
                if Ascii.eqb h "^" then parse_loop (InClass true []) st rest'
                else parse_loop (InClass false []) st rest
            | [] => None
            end
          else if Ascii.eqb c "]" || Ascii.eqb c "{" || Ascii.eqb c "}" then None
          else if Ascii.eqb c "." then parse_loop InPattern (push_term Dot st) rest
          else if Ascii.eqb c "^" then
            parse_loop InPattern (push_term LineStart st) rest
          else if Ascii.eqb c "$" then
            parse_loop InPattern (push_term LineEnd st) rest
          else parse_loop InPattern (push_term (Char c) st) rest
      end
  end.

Definition initial_pstate : pstate :=
  {| p_outer := [];
     p_cur := {| f_capture := None; f_alts := []; f_terms := [] |};
     p_next := 1; p_names := [] |}.

Definition parse (pattern : string) : option node :=
  match parse_loop InPattern initial_pstate (chars pattern) with
  | Some st =>
      match p_outer st with
      | [] => Some (close_frame (p_cur st))
      | _ => None
      end
  | None => None
  end.

(** *** Matching *)

(** The groups of a pattern, in the order of their opening parentheses. *)
Fixpoint group_list (r : node) : list (nat * option string) :=
  match r with
  | Seq a b => (group_list a ++ group_list b)%list
  | Alt a b => (group_list a ++ group_list b)%list
  | Group (Some g) body => g :: group_list body
  | Group None body => group_list body
  | Repeat _ _ _ body => group_list body
  | _ => []
  end.

Fixpoint named (gs : list (nat * option string)) : list (string * nat) :=
  match gs with
  | [] => []
  | (i, Some name) :: rest => (name, i) :: named rest
  | (_, None) :: rest => named rest
  end.

(** The names of the named capture groups of a pattern. *)
Definition group_names (r : node) : list string :=
  map fst (named (group_list r)).

(** A state of the matcher: the index reached in the subject, the part of the
    subject from there on, and what the groups have captured so far. *)
Record mstate : Type := mkMstate {
  m_pos : nat;
  m_rest : list ascii;
  m_caps : list (nat * string)
}.

Definition cont : Type := mstate -> option mstate.

Definition advance (x : mstate) (rest : list ascii) : mstate :=
  {| m_pos := S (m_pos x); m_rest := rest; m_caps := m_caps x |}.

Definition drop_captures (ids : list nat) (caps : list (nat * string))
  : list (nat * string) :=
  filter (fun p => negb (existsb (Nat.eqb (fst p)) ids)) caps.

(** Leaving a capturing group that was entered in state [x]. *)
Definition set_capture (capture : option (nat * option string)) (x y : mstate)
  : mstate :=
  match capture with
  | None => y
  | Some (i, _) =>
      {| m_pos := m_pos y; m_rest := m_rest y;
         m_caps := (i, text (firstn (m_pos y - m_pos x) (m_rest x)))
                     :: drop_captures [i] (m_caps y) |}
  end.

Definition one_char (ok : ascii -> bool) (x : mstate) (k : cont)
  : option mstate :=
  match m_rest x with
  | d :: rest => if ok d then k (advance x rest) else None
  | [] => None
  end.

Definition is_zero (o : option nat) : bool :=
  match o with Some 0 => true | _ => false end.

(** RepeatMatcher: an iteration that is not required and consumes nothing is
    rejected, and the captures of the body are cleared on entry to each
    iteration.  [fuel] bounds the number of iterations. *)
Fixpoint repeat_matcher (m : mstate -> cont -> option mstate) (inner : list nat)
  (greedy : bool) (fuel min : nat) (max : option nat) (x : mstate) (c : cont)
  {struct fuel} : option mstate :=
  if is_zero max then c x
  else
    match fuel with
    | 0 => None
    | S fuel' =>
        let d := fun y : mstate =>
          if Nat.eqb min 0 && Nat.eqb (m_pos y) (m_pos x) then None
          else repeat_matcher m inner greedy fuel' (Nat.pred min)
                              (option_map Nat.pred max) y c in
        let xr := {| m_pos := m_pos x; m_rest := m_rest x;
                     m_caps := drop_captures inner (m_caps x) |} in
        if negb (Nat.eqb min 0) then m xr d
        else if negb greedy then
          match c x with
          | Some z => Some z
          | None => m xr d
          end
        else
          match m xr d with
          | Some z => Some z
          | None => c x
          end
    end.

Fixpoint run (r : node) (x : mstate) (k : cont) {struct r} : option mstate :=
  match r with
  | Empty => k x
  | Char c => one_char (Ascii.eqb c) x k
  | Dot => one_char (fun d => negb (is_line_terminator d)) x k
  | Class invert items =>
      one_char (fun d => xorb invert (existsb (item_matches d) items)) x k
  | LineStart => if Nat.eqb (m_pos x) 0 then k x else None
  | LineEnd => match m_rest x with [] => k x | _ :: _ => None end
  | Seq a b => run a x (fun y => run b y k)
  | Alt a b =>
      match run a x k with
      | Some z => Some z
      | None => run b x k
      end
  | Group capture body => run body x (fun y => k (set_capture capture x y))
  | Repeat min max greedy body =>
      repeat_matcher (run body) (map fst (group_list body)) greedy
                     (S (min + length (m_rest x))) min max x k
  end.

(** One successful match: where it starts, the subject from there on, and
    the final state of the matcher. *)
Record found : Type := mkFound {
  f_index : nat;
  f_from : list ascii;
  f_end : mstate
}.

Definition matched_text (f : found) : string :=
  text (firstn (m_pos (f_end f) - f_index f) (f_from f)).

(** The search of RegExpBuiltinExec without the sticky flag: the first index
    from [pos] on at which the pattern matches. *)
Fixpoint search (r : node) (pos : nat) (rest : list ascii) : option found :=
  match run r {| m_pos := pos; m_rest := rest; m_caps := [] |} Some with
  | Some y => Some {| f_index := pos; f_from := rest; f_end := y |}
  | None =>
      match rest with
      | [] => None
      | _ :: rest' => search r (S pos) rest'
      end
  end.

Definition capture_of (caps : list (nat * string)) (i : nat) : option string :=
  option_map snd (find (fun p => Nat.eqb (fst p) i) caps).

(** The result of a match: the elements of the array and its [groups]
    property, which is [undefined] when the pattern has no named group. *)
Record MatchArray : Type := mkMatchArray {
  elements : list (option string);
  groups : option (list (string * option string))
}.

Definition groups_object (r : node) (caps : list (nat * string))
  : option (list (string * option string)) :=
  match named (group_list r) with
  | [] => None
  | names => Some (map (fun p => (fst p, capture_of caps (snd p))) names)
  end.

Definition RegExpBuiltinExec (r : node) (s : list ascii) : option MatchArray :=
  match search r 0 s with
  | None => None
  | Some f =>
      let caps := m_caps (f_end f) in
      Some {| elements := Some (matched_text f)
                            :: map (fun g => capture_of caps (fst g))
                                   (group_list r);
              groups := groups_object r caps |}
  end.

(** The matched substrings a global pattern collects, searching on from the
    end of each match, one index further after an empty match. *)
Fixpoint match_all (fuel : nat) (r : node) (pos : nat) (rest : list ascii)
  : list string :=
  match fuel with
  | 0 => []
  | S fuel' =>
      match search r pos rest with
      | None => []
      | Some f =>
          let y := f_end f in
          if Nat.eqb (m_pos y) (f_index f) then
            matched_text f ::
              match m_rest y with
              | [] => []
              | _ :: rest' => match_all fuel' r (S (m_pos y)) rest'
              end
          else matched_text f :: match_all fuel' r (m_pos y) (m_rest y)
      end
  end.

(** [s.match(rx)] for the patterns of the engine: [null] when nothing
    matches; for a global pattern the array of all matched substrings,
    which has no [groups]; otherwise the result of the first match.  For a
    pattern with other flags, or without a parse, the engine has no answer;
    it returns [None] there, which then stands for nothing. *)
Definition String_match (s : string) (rx : RegExp) : option MatchArray :=
  match re_flags rx with
  | EmptyString =>
      match parse (re_pattern rx) with
      | None => None
      | Some r =>
          if re_global rx then
            match match_all (S (String.length s)) r 0 (chars s) with
            | [] => None
            | all => Some {| elements := map Some all; groups := None |}
            end
          else RegExpBuiltinExec r (chars s)
      end
  | String _ _ => None
  end.

(** ** The router *)

(** A [RouteHandler] is a callback; the router only stores it and calls it,
    so it is represented by its reference.  Every handler is a function, hence
    truthy. *)
Definition RouteHandler : Type := nat.

(** [RouteDef = string | RegExp].  A [RegExp] is an object: [ref] is its
    reference, so two objects built from the same pattern are different
    keys. *)
Inductive RouteDef : Type :=
| RString (s : string)
| RRegExp (ref : nat) (rx : RegExp).

(** Key equality of a [Map]: strings by value, objects by reference. *)
Definition same_key (a b : RouteDef) : bool :=
  match a, b with
  | RString s, RString t => String.eqb s t
  | RRegExp i _, RRegExp j _ => Nat.eqb i j
  | _, _ => false
  end.

(** An object whose properties are strings or [undefined], in the order in
    which the properties were created. *)
Definition Params : Type := list (string * option string).

Record ResolvedRoute : Type := mkResolved {
  url : string;
  params : Params;
  route_ : option RouteDef
}.

(** The private fields of a [Router]; [aborted] is the state of the signal of
    [#controller]. *)
Record Router : Type := mkRouter {
  handlers : list (RouteDef * RouteHandler);
  fallbackHandler : option RouteHandler;
  afterEachHandler : option RouteHandler;
  startAt : option string;
  aborted : bool
}.

(** [new Router(opts)], with [opts?.startAt]. *)
Definition new_Router (opts_startAt : option string) : Router :=
  {| handlers := []; fallbackHandler := None; afterEachHandler := None;
     startAt := opts_startAt; aborted := false |}.

(** [Map.prototype.set]: the value of an existing key is replaced where the
    key stands, a new key is added at the end. *)
Fixpoint Map_set (k : RouteDef) (v : RouteHandler)
  (m : list (RouteDef * RouteHandler)) : list (RouteDef * RouteHandler) :=
  match m with
  | [] => [(k, v)]
  | (k', v') :: rest =>
      if same_key k k' then (k', v) :: rest else (k', v') :: Map_set k v rest
  end.

(** [Map.prototype.delete]. *)
Definition Map_delete (k : RouteDef) (m : list (RouteDef * RouteHandler))
  : list (RouteDef * RouteHandler) :=
  filter (fun e => negb (same_key k (fst e))) m.

(** The argument [RouteDef | RouteDef[]] of [on] and [off]. *)
Inductive RouteArg : Type :=
| One (d : RouteDef)
| Many (ds : list RouteDef).

(** [Array.isArray(route2) ? route2 : [route2]]. *)
Definition routeArr (route2 : RouteArg) : list RouteDef :=
  match route2 with
  | One d => [d]
  | Many ds => ds
  end.

Definition with_handlers (r : Router) (h : list (RouteDef * RouteHandler))
  : Router :=
  {| handlers := h; fallbackHandler := fallbackHandler r;
     afterEachHandler := afterEachHandler r; startAt := startAt r;
     aborted := aborted r |}.

Definition on (route2 : RouteArg) (handler : RouteHandler) (r : Router) : Router :=
  with_handlers r
    (fold_left (fun m i => Map_set i handler m) (routeArr route2) (handlers r)).

Definition off (route2 : RouteArg) (r : Router) : Router :=
  with_handlers r
    (fold_left (fun m i => Map_delete i m) (routeArr route2) (handlers r)).

Definition fallback (handler : RouteHandler) (r : Router) : Router :=
  {| handlers := handlers r; fallbackHandler := Some handler;
     afterEachHandler := afterEachHandler r; startAt := startAt r;
     aborted := aborted r |}.

Definition afterEach (handler : RouteHandler) (r : Router) : Router :=
  {| handlers := handlers r; fallbackHandler := fallbackHandler r;
     afterEachHandler := Some handler; startAt := startAt r;
     aborted := aborted r |}.

(** The local variables of [#exec] that outlive its loop. *)
Record locals : Type := mkLocals {
  route2 : option RouteDef;
  handler : option RouteHandler;
  params_ : option Params
}.

(** [{ ...match.groups }]: a copy of the properties of [groups], none when
    [groups] is [undefined]. *)
Definition spread (g : option Params) : Params :=
  match g with
  | Some ps => ps
  | None => []
  end.

(** Which expression of [#exec] supplied the function that is called. *)
Inductive origin : Type := OfRoute | OfFallback | OfAfterEach.

(** One call of a handler: who was called, for which reason, with which
    argument. *)
Record Call : Type := mkCall {
  call_origin : origin;
  callee : RouteHandler;
  argument : ResolvedRoute
}.

(** What a run of [#exec] comes to: the calls it has made, in order, and
    whether it was ended by the exception of a handler. *)
Record Outcome : Type := mkOutcome {
  calls : list Call;
  raised : bool
}.

(** A call of one of the registration methods. *)
Inductive method_call : Type :=
| CallOn (route2 : RouteArg) (handler : RouteHandler)
| CallOff (route2 : RouteArg)
| CallFallback (handler : RouteHandler)
| CallAfterEach (handler : RouteHandler).

Definition perform (r : Router) (calls : list method_call) : Router :=
  fold_left (fun r c =>
               match c with
               | CallOn route2 handler => on route2 handler r
               | CallOff route2 => off route2 r
               | CallFallback handler => fallback handler r
               | CallAfterEach handler => afterEach handler r
               end) calls r.

Section Resolution.

(** [String.prototype.match], as a function of the subject and the
    pattern. *)
Variable str_match : string -> RegExp -> option MatchArray.

(** The loop [for (const [k, v] of this.#handlers.entries())].  A handler
    is truthy, so the turn that assigns [handler] is the turn that sets
    [route2] and breaks. *)
Fixpoint for_entries (url : string) (entries : list (RouteDef * RouteHandler))
  : locals :=
  match entries with
  | [] => {| route2 := None; handler := None; params_ := None |}
  | (k, v) :: rest =>
      match k with
      | RString s =>
          if String.eqb url s then
            {| route2 := Some k; handler := Some v; params_ := None |}
          else for_entries url rest
      | RRegExp _ rx =>
          match str_match url rx with
          | Some m =>
              {| route2 := Some k; handler := Some v;
                 params_ := Some (spread (groups m)) |}
          | None => for_entries url rest
          end
      end
  end.

(** [{ url, params: params ?? {}, route: route2 }]. *)
Definition resolve (r : Router) (url : string) : ResolvedRoute :=
  let l := for_entries url (handlers r) in
  {| url := url;
     params := match params_ l with Some p => p | None => [] end;
     route_ := route2 l |}.

(** [(handler ?? this.#fallbackHandler)?.(resolved)]. *)
Definition call_handler (r : Router) (l : locals) (resolved : ResolvedRoute)
  : list Call :=
  match handler l with
  | Some h => [mkCall OfRoute h resolved]
  | None =>
      match fallbackHandler r with
      | Some f => [mkCall OfFallback f resolved]
      | None => []
      end
  end.

(** [this.#afterEachHandler?.(resolved)]. *)
Definition call_afterEach (r : Router) (resolved : ResolvedRoute) : list Call :=
  match afterEachHandler r with
  | Some a => [mkCall OfAfterEach a resolved]
  | None => []
  end.

(** [throws h resolved]: the call [h(resolved)] ends by an exception. *)
Variable throws : RouteHandler -> ResolvedRoute -> bool.

Definition throwing (c : Call) : bool := throws (callee c) (argument c).

(** Calls made one after the other: an exception ends the sequence. *)
Fixpoint make_calls (planned : list Call) : Outcome :=
  match planned with
  | [] => {| calls := []; raised := false |}
  | c :: rest =>
      if throwing c then {| calls := [c]; raised := true |}
      else {| calls := c :: calls (make_calls rest);
              raised := raised (make_calls rest) |}
  end.

(** [#exec(url)]: its two call statements, the second of which is reached
    when the first has returned.  It assigns no field of the router. *)
Definition exec (r : Router) (url : string) : Outcome :=
  let l := for_entries url (handlers r) in
  let resolved := resolve r url in
  make_calls (call_handler r l resolved ++ call_afterEach r resolved)%list.

(** *** Handlers that call back

    A handler can hold the router and call its methods while it runs.
    [body h resolved] lists the calls of [on], [off], [fallback] and
    [afterEach] that the handler [h] makes when it is called with
    [resolved]; [#exec] reads [#fallbackHandler] before the first call and
    [#afterEachHandler] after it. *)

Variable body : RouteHandler -> ResolvedRoute -> list method_call.

Definition run_body (r : Router) (c : Call) : Router :=
  perform r (body (callee c) (argument c)).

Definition exec_calling_back (r : Router) (url : string) : Router * Outcome :=
  let l := for_entries url (handlers r) in
  let resolved := resolve r url in
  let first := make_calls (call_handler r l resolved) in
  let r1 := fold_left run_body (calls first) r in
  if raised first then (r1, first)
  else
    let second := make_calls (call_afterEach r1 resolved) in
    let r2 := fold_left run_body (calls second) r1 in
    (r2, {| calls := (calls first ++ calls second)%list;
            raised := raised second |}).

(** ** The router in its page

    The page holds the fragment [location.hash], the [popstate] listeners
    the router has registered and that are still attached, and the
    navigation signals that the host has scheduled and not yet delivered.
    [history] records every run of [#exec]: what started it and what it
    came to.  An exception that ends a run of [#exec] leaves the page as it
    is: out of a listener it is reported by the host, out of [connect] it
    goes to the caller. *)

Inductive cause : Type := Activation | Signal.

Record Resolution : Type := mkResolution {
  res_cause : cause;
  res_resolved : ResolvedRoute;
  res_outcome : Outcome
}.

Record World : Type := mkWorld {
  location_hash : string;
  listeners : nat;
  signals : nat;
  router : Router;
  history : list Resolution
}.

(** A call [this.#exec()]: the url defaults to [location.hash]. *)
Definition run_exec (c : cause) (w : World) : World :=
  {| location_hash := location_hash w; listeners := listeners w;
     signals := signals w; router := router w;
     history := (history w
                 ++ [mkResolution c (resolve (router w) (location_hash w))
                                  (exec (router w) (location_hash w))])%list |}.

(** [addEventListener("popstate", ..., { signal })]: a listener whose
    signal is already aborted is not added. *)
Definition addEventListener (w : World) : World :=
  {| location_hash := location_hash w;
     listeners := if aborted (router w) then listeners w else S (listeners w);
     signals := signals w; router := router w; history := history w |}.

(** The assignment [location.hash = v] belongs to the host: the fragment
    becomes [v] and the host schedules one navigation signal. *)
Definition assign_hash (v : string) (w : World) : World :=
  {| location_hash := v; listeners := listeners w; signals := S (signals w);
     router := router w; history := history w |}.

(** A string is truthy when it is not empty. *)
Definition truthy (s : string) : bool := negb (String.eqb s "").

(** [if (this.#startAt && !location.hash) location.hash = this.#startAt;
    else this.#exec();] after the listener has been registered.  An
    [undefined] [startAt] is falsy. *)
Definition connect (w : World) : World :=
  let w1 := addEventListener w in
  match startAt (router w1) with
  | Some s =>
      if truthy s && negb (truthy (location_hash w1)) then assign_hash s w1
      else run_exec Activation w1
  | None => run_exec Activation w1
  end.

(** [this.#controller.abort()]: the signal is aborted, which detaches every
    listener that was registered with it. *)
Definition disconnect (w : World) : World :=
  {| location_hash := location_hash w; listeners := 0; signals := signals w;
     router := {| handlers := handlers (router w);
                  fallbackHandler := fallbackHandler (router w);
                  afterEachHandler := afterEachHandler (router w);
                  startAt := startAt (router w); aborted := true |};
     history := history w |}.

(** The host delivers a navigation signal: every attached listener runs
    [this.#exec()]. *)
Definition popstate (w : World) : World :=
  let w1 := Nat.iter (listeners w) (run_exec Signal) w in
  {| location_hash := location_hash w1; listeners := listeners w1;
     signals := Nat.pred (signals w1); router := router w1;
     history := history w1 |}.

Definition with_router (f : Router -> Router) (w : World) : World :=
  {| location_hash := location_hash w; listeners := listeners w;
     signals := signals w; router := f (router w); history := history w |}.

(** What can happen to a router in its page: calls of its methods, the page
    or its user changing the fragment, the host delivering a signal. *)
Inductive Action : Type :=
| Connect
| Disconnect
| On (route2 : RouteArg) (handler : RouteHandler)
| Off (route2 : RouteArg)
| Fallback (handler : RouteHandler)
| AfterEach (handler : RouteHandler)
| Navigate (hash : string)
| Popstate.

Definition step (w : World) (a : Action) : World :=
  match a with
  | Connect => connect w
  | Disconnect => disconnect w
  | On route2 handler => with_router (on route2 handler) w
  | Off route2 => with_router (off route2) w
  | Fallback handler => with_router (fallback handler) w
  | AfterEach handler => with_router (afterEach handler) w
  | Navigate hash => assign_hash hash w
  | Popstate => popstate w
  end.

Definition steps (w : World) (actions : list Action) : World :=
  fold_left step actions w.

(** The resolutions of a history that a navigation signal started. *)
Definition by_signal (h : list Resolution) : list Resolution :=
  filter (fun x => match res_cause x with Signal => true | Activation => false end) h.

(** A page in which a new router has just been created. *)
Definition page (hash : string) (r : Router) : World :=
  {| location_hash := hash; listeners := 0; signals := 0; router := r;
     history := [] |}.

End Resolution.

(** ** Notions used to state the properties *)

(** An entry matches a fragment: a string key when the fragment is equal to
    it, a pattern key when [match] finds something. *)
Definition matches (str_match : string -> RegExp -> option MatchArray)
  (u : string) (k : RouteDef) : bool :=
  match k with
  | RString s => String.eqb u s
  | RRegExp _ rx =>
      match str_match u rx with
      | Some _ => true
      | None => false
      end
  end.

(** The first entry of a registry, in insertion order, that matches. *)
Definition first_match (str_match : string -> RegExp -> option MatchArray)
  (u : string) (entries : list (RouteDef * RouteHandler))
  : option (RouteDef * RouteHandler) :=
  find (fun e => matches str_match u (fst e)) entries.

(** The calls of a list that have a given origin. *)
Definition calls_of (o : origin) (cs : list Call) : list Call :=
  filter (fun c =>
            match call_origin c, o with
            | OfRoute, OfRoute => true
            | OfFallback, OfFallback => true
            | OfAfterEach, OfAfterEach => true
            | _, _ => false
            end) cs.

(** Two [match] functions that agree on the keys of a list of entries. *)
Definition agree_on (m1 m2 : string -> RegExp -> option MatchArray)
  (u : string) (entries : list (RouteDef * RouteHandler)) : Prop :=
  forall e ref rx, In e entries -> fst e = RRegExp ref rx -> m1 u rx = m2 u rx.

(** The pieces of a route as the specification lists them: the literal
    segments and the interpolated values in alternating order, a literal
    piece escaped, a pattern value by its source. *)
Definition piece (v : Value) : string :=
  match v with
  | VString s => escapeRegex s
  | VRegExp r => source r
  end.

Fixpoint alternate (segments : list string) (values : list Value) : list string :=
  match segments with
  | [] => []
  | seg :: segments' =>
      escapeRegex seg ::
        match values with
        | [] => alternate segments' []
        | v :: values' => piece v :: alternate segments' values'
        end
  end.

(** An initial route is configured: [startAt] is set, and truthy. *)
Definition configured (r : Router) : bool :=
  match startAt r with
  | Some s => truthy s
  | None => false
  end.

(** The actions that are calls of the registration methods. *)
Definition registration (a : Action) : bool :=
  match a with
  | On _ _ | Off _ | Fallback _ | AfterEach _ => true
  | _ => false
  end.

(** [s] occurs in [u]. *)
Definition substring (s u : string) : Prop :=
  exists before after : list ascii, chars u = (before ++ chars s ++ after)%list.



(** ** Notions about the registry and the page *)

(** [Map.prototype.get] and [Map.prototype.has]: what a registry holds for
    a key. *)
Definition Map_get (k : RouteDef) (m : list (RouteDef * RouteHandler))
  : option RouteHandler :=
  option_map snd (find (fun e => same_key k (fst e)) m).

Definition Map_has (k : RouteDef) (m : list (RouteDef * RouteHandler)) : bool :=
  existsb (fun e => same_key k (fst e)) m.

(** The keys of a registry, in insertion order. *)
Definition keys (m : list (RouteDef * RouteHandler)) : list RouteDef :=
  map fst m.

(** No two keys of a list are the same key. *)
Fixpoint distinct (ks : list RouteDef) : bool :=
  match ks with
  | [] => true
  | k :: rest => forallb (fun k' => negb (same_key k k')) rest && distinct rest
  end.

(** The routes of a list that a registry with the keys [ks] has not, in the
    order of the list, each once. *)
Fixpoint new_keys (ds ks : list RouteDef) : list RouteDef :=
  match ds with
  | [] => []
  | d :: ds' =>
      if existsb (same_key d) ks then new_keys ds' ks
      else d :: new_keys ds' (ks ++ [d])
  end.

(** A key is one of the routes of an argument of [on] or [off]. *)
Definition named_by (route2 : RouteArg) (k : RouteDef) : bool :=
  existsb (fun d => same_key d k) (routeArr route2).

(** The handlers given to [fallback], and to [afterEach], in a list of
    calls, oldest first. *)
Definition fallback_calls (made : list method_call) : list RouteHandler :=
  flat_map (fun c => match c with CallFallback h => [h] | _ => [] end) made.

Definition afterEach_calls (made : list method_call) : list RouteHandler :=
  flat_map (fun c => match c with CallAfterEach h => [h] | _ => [] end) made.

(** The actions that attach or detach the listener. *)
Definition activation (a : Action) : bool :=
  match a with
  | Connect | Disconnect => true
  | _ => false
  end.

(** The navigation signals delivered in a course of events. *)
Definition deliveries (actions : list Action) : nat :=
  length (filter (fun a => match a with Popstate => true | _ => false end)
                 actions).

(** ** Notions about the parser and the matcher *)

(** A state of the matcher at work on the subject [u]: its index and the
    rest of the subject go together, and every capture is a piece of the
    subject. *)
Definition within (u : string) (x : mstate) : Prop :=
  (exists before : list ascii,
      chars u = (before ++ m_rest x)%list /\ length before = m_pos x) /\
  forall i s, In (i, s) (m_caps x) -> substring s u.

(** A matcher hands over to its continuation in states that satisfy [P]:
    whenever it succeeds from a state that satisfies [P], its result is the
    result of the continuation on such a state. *)
Definition hands_over (P : mstate -> Prop)
  (m : mstate -> cont -> option mstate) : Prop :=
  forall x k z, P x -> m x k = Some z -> exists y, P y /\ k y = Some z.

(** The parser after it has read some terms one after the other. *)
Definition push_terms (ts : list node) (st : pstate) : pstate :=
  fold_left (fun st t => push_term t st) ts st.

(** A text read as a pattern in which every character stands for itself. *)
Definition literal (s : string) : list node := map Char (chars s).

(** A pattern that is one alternative with [^] in front and [$] behind. *)
Definition anchored (ts : list node) : node :=
  sequence (LineStart :: ts ++ [LineEnd]).

(** A greedy repetition of one character of a set, at least [min] times:
    the longest run is tried first, then the shorter ones. *)
Fixpoint greedy_run (ok : ascii -> bool) (min pos : nat) (rest : list ascii)
  (caps : list (nat * string)) (c : cont) {struct rest} : option mstate :=
  let here :=
    if Nat.eqb min 0
    then c {| m_pos := pos; m_rest := rest; m_caps := caps |}
    else None in
  match rest with
  | d :: rest' =>
      if ok d then
        match greedy_run ok (Nat.pred min) (S pos) rest' caps c with
        | Some z => Some z
        | None => here
        end
      else here
  | [] => here
  end.

(** The characters of [\w]. *)
Definition word (w : string) : bool :=
  negb (String.eqb w "") && forallb is_word (chars w).

(** ** Routes made of strings and placeholders *)

(** The interpolated values the documentation of the library uses: a
    string, or a placeholder made by [param]. *)
Inductive simple : Type :=
| SString (s : string)
| SParam (name : string).

Definition to_value (v : simple) : Value :=
  match v with
  | SString s => VString s
  | SParam name => VRegExp (param name)
  end.

(** A name that a capture group can bear: letters, digits and underscores,
    the first of them not a digit. *)
Definition identifier (name : string) : bool :=
  match chars name with
  | [] => false
  | c :: _ => negb (is_digit c) && forallb is_word (chars name)
  end.

(** The pieces of such a route, in order: literal text and holes. *)
Inductive token : Type :=
| Lit (s : string)
| Hole (name : string).

Definition token_of (v : simple) : token :=
  match v with
  | SString s => Lit s
  | SParam name => Hole name
  end.

Fixpoint tokens (segments : list string) (values : list simple) : list token :=
  match segments with
  | [] => []
  | seg :: segments' =>
      Lit seg ::
        match values with
        | [] => tokens segments' []
        | v :: values' => token_of v :: tokens segments' values'
        end
  end.

Fixpoint hole_names (ts : list token) : list string :=
  match ts with
  | [] => []
  | Lit _ :: ts' => hole_names ts'
  | Hole name :: ts' => name :: hole_names ts'
  end.

Definition token_text (t : token) : string :=
  match t with
  | Lit s => escapeRegex s
  | Hole name => "(?<" ++ name ++ ">\w+)"
  end.

(** The text the pieces stand for when all of them are literal. *)
Fixpoint raw_text (ts : list token) : string :=
  match ts with
  | [] => ""
  | Lit s :: ts' => s ++ raw_text ts'
  | Hole _ :: ts' => raw_text ts'
  end.

(** The pattern of a placeholder, [\w+] in a group with the next free index
    [i] and the given name. *)
Definition word_plus : node :=
  Repeat 1 None true (Class false [ItemSet false SetWord]).

Definition hole (i : nat) (name : string) : node :=
  Group (Some (i, Some name)) word_plus.

(** The terms the pieces are read as, the groups numbered from [i] on. *)
Fixpoint token_nodes (i : nat) (ts : list token) : list node :=
  match ts with
  | [] => []
  | Lit s :: ts' => (literal s ++ token_nodes i ts')%list
  | Hole name :: ts' => hole i name :: token_nodes (S i) ts'
  end.

(** The parser after it has read a placeholder. *)
Definition push_hole (name : string) (st : pstate) : pstate :=
  {| p_outer := p_outer st;
     p_cur := {| f_capture := f_capture (p_cur st);
                 f_alts := f_alts (p_cur st);
                 f_terms := hole (p_next st) name :: f_terms (p_cur st) |};
     p_next := S (p_next st);
     p_names := name :: p_names st |}.

Definition read_token (st : pstate) (t : token) : pstate :=
  match t with
  | Lit s => push_terms (literal s) st
  | Hole name => push_hole name st
  end.

(** ** Examples *)

Definition users_pattern : RegExp := new_RegExp "^#/users/(?<id>\w+)$".

(** [new Router({ startAt: "#/home" }).on("#/home", h1)
      .on(/^#\/users\/(?<id>\w+)$/, h2).fallback(h3)] *)
Definition demo_router : Router :=
  fallback 3
    (on (One (RRegExp 1 users_pattern)) 2
       (on (One (RString "#/home")) 1 (new_Router (Some "#/home")))).

(** The same registry followed by a second entry that matches every
    fragment, and an [afterEach] handler. *)
Definition crowded_router : Router :=
  afterEach 5 (on (One (RRegExp 2 (new_RegExp "^#/.*$"))) 4 demo_router).



(** A handler, [1], that unregisters its own route when it is called. *)
Definition leaving (h : RouteHandler) (resolved : ResolvedRoute)
  : list method_call :=
  match h, route_ resolved with
  | 1, Some k => [CallOff (One k)]
  | _, _ => []
  end.

(** Handlers that return normally. *)
Definition no_throw (h : RouteHandler) (resolved : ResolvedRoute) : bool := false.

(** The handler [1] throws, the others return. *)
Definition one_throws (h : RouteHandler) (resolved : ResolvedRoute) : bool :=
  Nat.eqb h 1.

(** [route`#/${/a|b/}`] *)
Definition either_route : completion RegExp :=
  route ["#/"; ""] [VRegExp (new_RegExp "a|b")].

(** The helpers of the test suite: [navigate(hash)] sets the fragment and
    dispatches a [popstate] event, [tick()] only dispatches one. *)
Definition navigate (hash : string) : list Action := [Navigate hash; Popstate].

Definition tick : list Action := [Popstate].

(** The arguments with which a handler has been called so far, oldest
    first. *)
Definition calls_to (h : RouteHandler) (w : World) : list ResolvedRoute :=
  map argument
      (filter (fun c => Nat.eqb (callee c) h)
              (concat (map (fun x => calls (res_outcome x)) (history w)))).

(** The [source] of what [route] returns. *)
Definition route_source (segments : list string) (values : list Value)
  : option string :=
  match route segments values with
  | Return rx => Some (source rx)
  | Throw _ => None
  end.

(* ================================================================ *)
(** * Properties *)

(** ** Resolution *)

Section ResolutionProperties.

Variable str_match : string -> RegExp -> option MatchArray.

(** The loop skips the entries that do not match. *)
Lemma for_entries_skip :
  forall u before rest,
    Forall (fun e => matches str_match u (fst e) = false) before ->
    for_entries str_match u (before ++ rest) = for_entries str_match u rest.
Proof.
  intros u before rest H.
  induction H as [|[k v] before Hk _ IH]; simpl; [reflexivity|].
  destruct k as [s|ref rx]; simpl in Hk.
  - rewrite Hk. exact IH.
  - destruct (str_match u rx); [discriminate|exact IH].
Qed.

(** The loop is the search for the first matching entry. *)
Lemma for_entries_first_match :
  forall u entries,
    match first_match str_match u entries with
    | Some (k, v) =>
        route2 (for_entries str_match u entries) = Some k /\
        handler (for_entries str_match u entries) = Some v /\
        matches str_match u k = true
    | None =>
        for_entries str_match u entries
        = {| route2 := None; handler := None; params_ := None |}
    end.
Proof.
  intros u entries.
  induction entries as [|[k v] rest IH]; simpl; [reflexivity|].
  unfold first_match in *. simpl.
  destruct k as [s|ref rx]; simpl.
  - destruct (String.eqb u s) eqn:E; simpl; [|exact IH].
    rewrite E. auto.
  - destruct (str_match u rx) eqn:E; simpl; [|exact IH].
    rewrite E. auto.
Qed.

(** What the loop leaves at the first matching entry. *)
Lemma for_entries_hit :
  forall u k v rest,
    matches str_match u k = true ->
    for_entries str_match u ((k, v) :: rest)
    = {| route2 := Some k; handler := Some v;
         params_ := match k with
                    | RString _ => None
                    | RRegExp _ rx =>
                        option_map (fun m => spread (groups m)) (str_match u rx)
                    end |}.
Proof.
  intros u k v rest H. destruct k as [s|ref rx]; simpl in *.
  - rewrite H. reflexivity.
  - destruct (str_match u rx); [reflexivity|discriminate].
Qed.

Lemma first_match_skip :
  forall u before rest,
    Forall (fun e => matches str_match u (fst e) = false) before ->
    first_match str_match u (before ++ rest) = first_match str_match u rest.
Proof.
  intros u before rest H. unfold first_match.
  induction H as [|e before He _ IH]; simpl; [reflexivity|].
  rewrite He. exact IH.
Qed.

End ResolutionProperties.

Lemma agree_matches :
  forall m1 m2 u entries e,
    agree_on m1 m2 u entries -> In e entries ->
    matches m1 u (fst e) = matches m2 u (fst e).
Proof.
  intros m1 m2 u entries [k v] H Hin. destruct k as [s|ref rx]; simpl.
  - reflexivity.
  - rewrite (H (RRegExp ref rx, v) ref rx Hin eq_refl). reflexivity.
Qed.

(** The first of the planned calls is made. *)
Lemma make_calls_first :
  forall throws c rest,
    hd_error (calls (make_calls throws (c :: rest))) = Some c.
Proof.
  intros throws c rest. simpl. destruct (throwing throws c); reflexivity.
Qed.

Lemma make_calls_one :
  forall throws c,
    make_calls throws [c] = {| calls := [c]; raised := throwing throws c |}.
Proof.
  intros throws c. simpl. destruct (throwing throws c); reflexivity.
Qed.

(** When no planned call throws, all are made. *)
Lemma make_calls_quiet :
  forall throws planned,
    (forall c, In c planned -> throwing throws c = false) ->
    make_calls throws planned = {| calls := planned; raised := false |}.
Proof.
  intros throws planned. induction planned as [|c rest IH]; intros H;
    [reflexivity|].
  simpl. rewrite (H c (or_introl eq_refl)).
  rewrite IH by (intros c' Hc'; apply H; right; exact Hc'). reflexivity.
Qed.

(** The calls made are planned ones, and an exception comes from a call
    that was made. *)
Lemma make_calls_sound :
  forall throws planned,
    (forall c, In c (calls (make_calls throws planned)) -> In c planned) /\
    (raised (make_calls throws planned) = true ->
     exists c, In c (calls (make_calls throws planned))
               /\ throwing throws c = true).
Proof.
  intros throws planned. induction planned as [|c rest (IHin & IHraised)].
  - split; [intros c []|discriminate].
  - simpl. destruct (throwing throws c) eqn:E; simpl.
    + split; [intros c' [<-|[]]; left; reflexivity|].
      intros _. exists c. split; [left; reflexivity|exact E].
    + split.
      * intros c' [<-|H]; [left; reflexivity|right; exact (IHin c' H)].
      * intros H. destruct (IHraised H) as (c' & Hin & Hc').
        exists c'. split; [right; exact Hin|exact Hc'].
Qed.

(** The calls of a resolution that come from the registry or from the
    fallback slot: the first call statement is always reached. *)
Lemma calls_of_first_statement :
  forall throws o first second,
    (forall c, In c first -> call_origin c <> OfAfterEach) ->
    (forall c, In c second -> call_origin c = OfAfterEach) ->
    length first <= 1 ->
    o <> OfAfterEach ->
    calls_of o (calls (make_calls throws (first ++ second))) = calls_of o first.
Proof.
  intros throws o first second Hfirst Hsecond Hlen Ho.
  assert (Hs : forall l, (forall c, In c l -> call_origin c = OfAfterEach) ->
                         calls_of o l = []).
  { induction l as [|c l IH]; intros H; [reflexivity|]. simpl.
    rewrite (H c (or_introl eq_refl)).
    destruct o; try congruence; apply IH; intros c' Hc'; apply H; right;
      exact Hc'. }
  destruct first as [|c [|c' first]]; simpl in *; try lia.
  - apply Hs. intros c Hc. apply Hsecond.
    exact (proj1 (make_calls_sound throws second) c Hc).
  - destruct (throwing throws c); simpl; [reflexivity|].
    rewrite Hs; [reflexivity|].
    intros c' Hc'. apply Hsecond.
    exact (proj1 (make_calls_sound throws second) c' Hc').
Qed.

(** C1.  Resolution scans the registry in insertion order and stops at the
    first entry that matches, a string key by equality with the fragment and
    a pattern key by [match].  When [(k, v)] is the first matching entry,
    whatever follows it in the registry, [k] is the resolved route, the
    call of [v] is the first call made and the one call of a route handler,
    and the entries after it are never consulted: neither replacing them
    nor changing what [match] would answer for them changes anything the
    resolution does. *)
Theorem first_match_wins :
  forall str_match throws (r : Router) (u : string) before k v after,
    handlers r = (before ++ (k, v) :: after)%list ->
    Forall (fun e => matches str_match u (fst e) = false) before ->
    matches str_match u k = true ->
    first_match str_match u (handlers r) = Some (k, v) /\
    route_ (resolve str_match r u) = Some k /\
    hd_error (calls (exec str_match throws r u))
    = Some (mkCall OfRoute v (resolve str_match r u)) /\
    calls_of OfRoute (calls (exec str_match throws r u))
    = [mkCall OfRoute v (resolve str_match r u)] /\
    forall other_match after',
      agree_on other_match str_match u (before ++ [(k, v)])%list ->
      exec other_match throws
           (with_handlers r (before ++ (k, v) :: after')%list) u
      = exec str_match throws r u.
Proof.
  intros str_match throws r u before k v after Hr Hbefore Hk.
  assert (Hloop : forall m tail,
             agree_on m str_match u (before ++ [(k, v)])%list ->
             for_entries m u (before ++ (k, v) :: tail)%list
             = {| route2 := Some k; handler := Some v;
                  params_ := match k with
                             | RString _ => None
                             | RRegExp _ rx =>
                                 option_map (fun x => spread (groups x))
                                            (str_match u rx)
                             end |}).
  { intros m tail Hm.
    rewrite for_entries_skip.
    - rewrite for_entries_hit.
      + destruct k as [s|ref rx]; [reflexivity|].
        rewrite (Hm (RRegExp ref rx, v) ref rx); [reflexivity| |reflexivity].
        apply in_or_app. right. left. reflexivity.
      + replace k with (fst (k, v)) by reflexivity.
        rewrite (agree_matches m str_match u _ (k, v) Hm); [exact Hk|].
        apply in_or_app. right. left. reflexivity.
    - rewrite Forall_forall in *. intros e He.
      rewrite (agree_matches m str_match u _ e Hm).
      + apply Hbefore. exact He.
      + apply in_or_app. left. exact He. }
  assert (Hself : agree_on str_match str_match u (before ++ [(k, v)])%list)
    by (intros e ref rx _ _; reflexivity).
  assert (Hexec : exec str_match throws r u
                  = make_calls throws
                      (mkCall OfRoute v (resolve str_match r u)
                         :: call_afterEach r (resolve str_match r u))).
  { unfold exec, call_handler. rewrite Hr, (Hloop str_match after Hself).
    reflexivity. }
  split; [|split; [|split; [|split]]].
  - rewrite Hr, first_match_skip by exact Hbefore.
    unfold first_match. simpl. rewrite Hk. reflexivity.
  - unfold resolve. rewrite Hr, (Hloop str_match after Hself). reflexivity.
  - rewrite Hexec. apply make_calls_first.
  - rewrite Hexec.
    change (?c :: call_afterEach r ?x) with ([c] ++ call_afterEach r x)%list.
    rewrite calls_of_first_statement; [reflexivity| | |simpl; lia|discriminate].
    + intros c [<-|[]]. discriminate.
    + intros c Hc. unfold call_afterEach in Hc.
      destruct (afterEachHandler r); [|contradiction].
      destruct Hc as [<-|[]]. reflexivity.
  - intros m after' Hm.
    unfold exec, resolve, call_handler, call_afterEach. simpl.
    rewrite Hr, (Hloop m after' Hm), (Hloop str_match after Hself).
    reflexivity.
Qed.

(** C1 on the crowded registry: [#/users/7] is matched by the pattern of
    the users and by the catch-all pattern registered after it. *)
Lemma first_match_wins_witness :
  handlers crowded_router
  = ([(RString "#/home", 1)]
       ++ (RRegExp 1 users_pattern, 2)
       :: [(RRegExp 2 (new_RegExp "^#/.*$"), 4)])%list /\
  matches String_match "#/users/7" (RRegExp 2 (new_RegExp "^#/.*$")) = true /\
  route_ (resolve String_match crowded_router "#/users/7")
  = Some (RRegExp 1 users_pattern) /\
  calls_of OfRoute
    (calls (exec String_match no_throw crowded_router "#/users/7"))
  = [mkCall OfRoute 2
       (mkResolved "#/users/7" [("id", Some "7")]
                   (Some (RRegExp 1 users_pattern)))].
Proof.
  destruct (first_match_wins String_match no_throw crowded_router "#/users/7"
              [(RString "#/home", 1)] (RRegExp 1 users_pattern) 2
              [(RRegExp 2 (new_RegExp "^#/.*$"), 4)])
    as (_ & Hroute & _ & Hcalls & _).
  - reflexivity.
  - repeat constructor.
  - reflexivity.
  - split; [reflexivity|]. split; [reflexivity|]. split; [exact Hroute|].
    rewrite Hcalls. reflexivity.
Defined.

(** The calls of the two call statements of [#exec] have their origins. *)
Lemma call_handler_origin :
  forall r l x c,
    In c (call_handler r l x) ->
    call_origin c <> OfAfterEach /\ argument c = x.
Proof.
  intros r l x c Hc. unfold call_handler in Hc.
  destruct (handler l); [|destruct (fallbackHandler r)]; simpl in Hc;
    try contradiction; destruct Hc as [<-|[]]; split; (discriminate || reflexivity).
Qed.

Lemma call_handler_length :
  forall r l x, length (call_handler r l x) <= 1.
Proof.
  intros r l x. unfold call_handler.
  destruct (handler l); [|destruct (fallbackHandler r)]; simpl; lia.
Qed.

Lemma call_afterEach_origin :
  forall r x c,
    In c (call_afterEach r x) ->
    call_origin c = OfAfterEach /\ argument c = x.
Proof.
  intros r x c Hc. unfold call_afterEach in Hc.
  destruct (afterEachHandler r); [|contradiction].
  destruct Hc as [<-|[]]. split; reflexivity.
Qed.

(** C6.  What a resolution calls, in every case: the handler of the first
    matching entry when there is one, and then not the fallback; otherwise
    the fallback when it is set, with a [ResolvedRoute] whose route is
    absent and whose params are empty; then the post-navigation handler when
    it is set.  A handler that is not set is not called, and nothing of
    [#exec] itself raises, whatever is absent (no match, no entry, no
    fallback, no post-navigation handler): an exception that leaves a
    resolution was raised by a handler that the resolution called. *)
Theorem dispatch_total :
  forall str_match throws (r : Router) (u : string),
    exec str_match throws r u
    = make_calls throws
        (match first_match str_match u (handlers r) with
         | Some (_, v) => [mkCall OfRoute v (resolve str_match r u)]
         | None =>
             match fallbackHandler r with
             | Some f => [mkCall OfFallback f (mkResolved u [] None)]
             | None => []
             end
         end
         ++ match afterEachHandler r with
            | Some a => [mkCall OfAfterEach a (resolve str_match r u)]
            | None => []
            end)%list
    /\ match first_match str_match u (handlers r) with
       | Some (k, v) =>
           route_ (resolve str_match r u) = Some k /\
           calls_of OfRoute (calls (exec str_match throws r u))
           = [mkCall OfRoute v (resolve str_match r u)] /\
           calls_of OfFallback (calls (exec str_match throws r u)) = []
       | None =>
           resolve str_match r u = mkResolved u [] None /\
           calls_of OfRoute (calls (exec str_match throws r u)) = [] /\
           calls_of OfFallback (calls (exec str_match throws r u))
           = match fallbackHandler r with
             | Some f => [mkCall OfFallback f (mkResolved u [] None)]
             | None => []
             end
       end
    /\ (raised (exec str_match throws r u) = true ->
        exists c, In c (calls (exec str_match throws r u))
                  /\ throws (callee c) (argument c) = true)
    /\ (handlers r = [] -> first_match str_match u (handlers r) = None).
Proof.
  intros str_match throws r u.
  pose proof (for_entries_first_match str_match u (handlers r)) as H.
  assert (Hof : forall o, o <> OfAfterEach ->
             calls_of o (calls (exec str_match throws r u))
             = calls_of o (call_handler r (for_entries str_match u (handlers r))
                                        (resolve str_match r u))).
  { intros o Ho. unfold exec. apply calls_of_first_statement.
    - intros c Hc. exact (proj1 (call_handler_origin _ _ _ _ Hc)).
    - intros c Hc. exact (proj1 (call_afterEach_origin _ _ _ Hc)).
    - apply call_handler_length.
    - exact Ho. }
  split; [|split; [|split]].
  - unfold exec, resolve, call_handler, call_afterEach.
    destruct (first_match str_match u (handlers r)) as [[k v]|] eqn:E.
    + destruct H as (Hk & Hv & _). rewrite Hk, Hv. reflexivity.
    + rewrite H. simpl. reflexivity.
  - rewrite !Hof by discriminate.
    unfold resolve, call_handler.
    destruct (first_match str_match u (handlers r)) as [[k v]|] eqn:E.
    + destruct H as (Hk & Hv & _). rewrite Hk, Hv.
      repeat split; reflexivity.
    + rewrite H. simpl.
      repeat split; try reflexivity;
        destruct (fallbackHandler r); reflexivity.
  - intros Hraised. unfold exec in *.
    exact (proj2 (make_calls_sound throws _) Hraised).
  - intros Hnil. rewrite Hnil. reflexivity.
Qed.

(** C6 on a router with nothing registered. *)
Lemma dispatch_total_witness :
  handlers (new_Router None) = [] /\
  first_match String_match "#/home" (handlers (new_Router None)) = None /\
  exec String_match no_throw (new_Router None) "#/home"
  = {| calls := []; raised := false |}.
Proof.
  pose proof (dispatch_total String_match no_throw (new_Router None) "#/home")
    as (Hexec & _ & _ & Hnil).
  split; [reflexivity|]. split.
  - exact (Hnil eq_refl).
  - rewrite Hexec. reflexivity.
Defined.

(** C5.  When a post-navigation handler is set and the route handler or
    the fallback that a resolution calls returns normally (or none is
    called), the resolution calls the post-navigation handler exactly once,
    whether or not an entry matched, after the route handler or the
    fallback, and with the [ResolvedRoute] of that resolution, which is also
    the argument of every other call the resolution makes. *)
Theorem afterEach_once :
  forall str_match throws (r : Router) (u : string) (a : RouteHandler),
    afterEachHandler r = Some a ->
    (forall c,
        In c (call_handler r (for_entries str_match u (handlers r))
                           (resolve str_match r u)) ->
        throws (callee c) (argument c) = false) ->
    calls_of OfAfterEach (calls (exec str_match throws r u))
    = [mkCall OfAfterEach a (resolve str_match r u)] /\
    calls (exec str_match throws r u)
    = (call_handler r (for_entries str_match u (handlers r))
                    (resolve str_match r u)
       ++ [mkCall OfAfterEach a (resolve str_match r u)])%list /\
    (forall c, In c (calls (exec str_match throws r u)) ->
               argument c = resolve str_match r u).
Proof.
  intros str_match throws r u a Ha Hreturns.
  assert (Hcalls : calls (exec str_match throws r u)
                   = (call_handler r (for_entries str_match u (handlers r))
                                   (resolve str_match r u)
                      ++ [mkCall OfAfterEach a (resolve str_match r u)])%list).
  { unfold exec, call_afterEach. rewrite Ha.
    pose proof (call_handler_length r (for_entries str_match u (handlers r))
                  (resolve str_match r u)) as Hlen.
    destruct (call_handler r _ _) as [|c [|c' rest]]; simpl in Hlen; try lia.
    - cbn [app]. rewrite make_calls_one. reflexivity.
    - simpl. unfold throwing at 1. rewrite (Hreturns c (or_introl eq_refl)).
      destruct (throwing throws _); reflexivity. }
  split; [|split].
  - rewrite Hcalls. unfold call_handler.
    destruct (handler _); [reflexivity|].
    destruct (fallbackHandler r); reflexivity.
  - exact Hcalls.
  - intros c Hc. rewrite Hcalls in Hc. apply in_app_or in Hc.
    destruct Hc as [Hc|[<-|[]]]; [|reflexivity].
    exact (proj2 (call_handler_origin _ _ _ _ Hc)).
Qed.

(** C5 on the crowded registry, whose post-navigation handler is [5] and
    whose handlers return. *)
Lemma afterEach_once_witness :
  afterEachHandler crowded_router = Some 5 /\
  calls_of OfAfterEach
    (calls (exec String_match no_throw crowded_router "#/nowhere"))
  = [mkCall OfAfterEach 5
       (mkResolved "#/nowhere" [] (Some (RRegExp 2 (new_RegExp "^#/.*$"))))] /\
  calls_of OfAfterEach
    (calls (exec String_match no_throw crowded_router "elsewhere"))
  = [mkCall OfAfterEach 5 (mkResolved "elsewhere" [] None)].
Proof.
  split; [reflexivity|]. split.
  - exact (proj1 (afterEach_once String_match no_throw crowded_router
                    "#/nowhere" 5 eq_refl (fun c _ => eq_refl))).
  - exact (proj1 (afterEach_once String_match no_throw crowded_router
                    "elsewhere" 5 eq_refl (fun c _ => eq_refl))).
Defined.

(** C5 as it is stated fails when the route handler throws: on the crowded
    registry, whose post-navigation handler is [5], the handler [1] of
    [#/home] throws, the exception leaves [#exec] at its first call
    statement, and the resolution of [#/home] makes no call of the
    post-navigation handler. *)
Lemma throwing_handler_skips_afterEach :
  afterEachHandler crowded_router = Some 5 /\
  exec String_match one_throws crowded_router "#/home"
  = {| calls := [mkCall OfRoute 1
                   (mkResolved "#/home" [] (Some (RString "#/home")))];
       raised := true |} /\
  calls_of OfAfterEach
    (calls (exec String_match one_throws crowded_router "#/home")) = [] /\
  calls_of OfAfterEach
    (calls (exec String_match one_throws crowded_router "#/home"))
  <> [mkCall OfAfterEach 5 (resolve String_match crowded_router "#/home")].
Proof. repeat split. discriminate. Qed.

(** X23.  The post-navigation handler is called at most once in a
    resolution, and it is called when, and only when, the first call
    statement has returned. *)
Lemma afterEach_at_most_once :
  forall str_match throws (r : Router) (u : string),
    calls_of OfAfterEach (calls (exec str_match throws r u))
    = if existsb (throwing throws)
           (call_handler r (for_entries str_match u (handlers r))
                         (resolve str_match r u))
      then []
      else call_afterEach r (resolve str_match r u).
Proof.
  intros str_match throws r u. unfold exec.
  pose proof (call_handler_length r (for_entries str_match u (handlers r))
                (resolve str_match r u)) as Hlen.
  pose proof (call_handler_origin r (for_entries str_match u (handlers r))
                (resolve str_match r u)) as Horigin.
  assert (Hafter : calls_of OfAfterEach
                     (calls (make_calls throws
                               (call_afterEach r (resolve str_match r u))))
                   = call_afterEach r (resolve str_match r u)).
  { unfold call_afterEach. destruct (afterEachHandler r); [|reflexivity].
    rewrite make_calls_one. reflexivity. }
  destruct (call_handler r _ _) as [|c [|c' rest]]; simpl in Hlen; try lia.
  - exact Hafter.
  - destruct (Horigin c (or_introl eq_refl)) as (Hc & _).
    simpl. destruct (throwing throws c); simpl.
    + destruct (call_origin c); congruence.
    + rewrite Hafter. destruct (call_origin c); congruence.
Qed.

(** ** The router through a resolution *)

(** Delivering a signal runs [#exec] once for each attached listener. *)
Lemma iter_run_exec :
  forall str_match throws n w,
    let w' := Nat.iter n (run_exec str_match throws Signal) w in
    location_hash w' = location_hash w /\ listeners w' = listeners w /\
    signals w' = signals w /\ router w' = router w /\
    history w'
    = (history w
       ++ repeat (mkResolution Signal
                    (resolve str_match (router w) (location_hash w))
                    (exec str_match throws (router w) (location_hash w))) n)%list.
Proof.
  intros str_match throws n w. induction n as [|n IH]; simpl.
  - repeat split; try reflexivity. rewrite app_nil_r. reflexivity.
  - destruct IH as (Hh & Hl & Hs & Hr & Hy).
    repeat split; try assumption.
    rewrite Hy, Hr, Hh, <- app_assoc. f_equal.
    change (?x :: repeat ?x n) with (repeat x (S n)).
    rewrite <- repeat_cons. reflexivity.
Qed.

(** A step that is not a call of [on], [off], [fallback] or [afterEach]
    leaves the registry, the two handler slots and the initial route as
    they are. *)
Lemma step_frame :
  forall str_match throws (w : World) (a : Action),
    registration a = false ->
    handlers (router (step str_match throws w a)) = handlers (router w) /\
    fallbackHandler (router (step str_match throws w a))
    = fallbackHandler (router w) /\
    afterEachHandler (router (step str_match throws w a))
    = afterEachHandler (router w) /\
    startAt (router (step str_match throws w a)) = startAt (router w).
Proof.
  intros str_match throws w a Ha. destruct a; try discriminate Ha; simpl.
  - unfold connect.
    destruct (startAt (router (addEventListener w))) as [s|];
      [destruct (truthy s && negb (truthy _))|]; repeat split.
  - repeat split.
  - repeat split.
  - destruct (iter_run_exec str_match throws (listeners w) w)
      as (_ & _ & _ & Hr & _).
    rewrite Hr. repeat split.
Qed.

(** Handlers that make no call leave the router as it is. *)
Lemma quiet_calls :
  forall body made r,
    (forall c, In c made -> body (callee c) (argument c) = []) ->
    fold_left (run_body body) made r = r.
Proof.
  intros body made. induction made as [|c made IH]; intros r H;
    [reflexivity|].
  cbn [fold_left]. unfold run_body at 2.
  rewrite (H c (or_introl eq_refl)). apply IH.
  intros c' Hc'. apply H. right. exact Hc'.
Qed.

(** Two call statements in a row. *)
Lemma make_calls_app :
  forall throws l1 l2,
    make_calls throws (l1 ++ l2)
    = if raised (make_calls throws l1) then make_calls throws l1
      else {| calls := (calls (make_calls throws l1)
                        ++ calls (make_calls throws l2))%list;
              raised := raised (make_calls throws l2) |}.
Proof.
  intros throws l1 l2. induction l1 as [|c l1 IH]; simpl.
  - destruct (make_calls throws l2); reflexivity.
  - destruct (throwing throws c); simpl; [reflexivity|].
    rewrite IH. destruct (raised (make_calls throws l1)) eqn:E; simpl;
      rewrite ?E; reflexivity.
Qed.

(** C10.  A resolution changes nothing of the router.  Provided the
    handlers it calls do not call the registration methods of the router,
    [#exec] leaves the registry, with its contents and their order, the
    fallback handler, the post-navigation handler and the initial route as
    they were, whether its handlers return or throw, and its calls are those
    of [exec].  So does then any course of events in which [on], [off],
    [fallback] and [afterEach] are not called, however many resolutions
    activations and navigation signals start in it. *)
Theorem resolution_frame :
  forall str_match throws body (r : Router) (u : string),
    (forall c, In c (calls (exec str_match throws r u)) ->
               body (callee c) (argument c) = []) ->
    exec_calling_back str_match throws body r u
    = (r, exec str_match throws r u) /\
    (forall (w : World) (actions : list Action),
        router w = r ->
        forallb (fun a => negb (registration a)) actions = true ->
        let w' := steps str_match throws w actions in
        handlers (router w') = handlers r /\
        fallbackHandler (router w') = fallbackHandler r /\
        afterEachHandler (router w') = afterEachHandler r /\
        startAt (router w') = startAt r).
Proof.
  intros str_match throws body r u Hquiet. split.
  - unfold exec_calling_back. unfold exec in *. cbv zeta.
    rewrite make_calls_app in *.
    destruct (raised (make_calls throws (call_handler r _ _))).
    + rewrite (quiet_calls body _ r) by exact Hquiet. reflexivity.
    + cbn [calls] in Hquiet.
      rewrite (quiet_calls body (calls (make_calls throws (call_handler r _ _))) r)
        by (intros c Hc; apply Hquiet, in_or_app; left; exact Hc).
      rewrite (quiet_calls body (calls (make_calls throws (call_afterEach r _))) r)
        by (intros c Hc; apply Hquiet, in_or_app; right; exact Hc).
      reflexivity.
  - intros w actions Hr H. clear Hquiet. subst r. revert w. unfold steps.
    induction actions as [|a actions IH]; intros w; simpl; [repeat split|].
    simpl in H. apply andb_prop in H. destruct H as (Ha & Hrest).
    apply negb_true_iff in Ha.
    destruct (step_frame str_match throws w a Ha) as (H1 & H2 & H3 & H4).
    destruct (IH Hrest (step str_match throws w a)) as (I1 & I2 & I3 & I4).
    rewrite I1, I2, I3, I4. repeat split; assumption.
Qed.

(** C10 on the example router, with handlers that make no call: one
    resolution, and then an activation, a navigation and two signals. *)
Lemma resolution_frame_witness :
  exec_calling_back String_match no_throw (fun _ _ => []) demo_router "#/users/7"
  = (demo_router, exec String_match no_throw demo_router "#/users/7") /\
  (let w' := steps String_match no_throw (page "" demo_router)
                   [Connect; Popstate; Navigate "#/users/7"; Popstate] in
   length (history w') = 2 /\
   handlers (router w') = handlers demo_router /\
   fallbackHandler (router w') = Some 3).
Proof.
  destruct (resolution_frame String_match no_throw (fun _ _ => []) demo_router
              "#/users/7")
    as (Hexec & Hsteps).
  - intros c _. reflexivity.
  - split; [exact Hexec|].
    destruct (Hsteps (page "" demo_router)
                [Connect; Popstate; Navigate "#/users/7"; Popstate]
                eq_refl eq_refl) as (Hh & Hf & _).
    cbv zeta. split; [reflexivity|]. split; [exact Hh|exact Hf].
Defined.

(** Without the proviso the router does change: a handler that unregisters
    its own route leaves a registry without that route. *)
Example handler_that_leaves :
  let r := on (One (RString "#/once")) 1 (new_Router None) in
  handlers r = [(RString "#/once", 1)] /\
  calls (exec String_match no_throw r "#/once")
  = [mkCall OfRoute 1 (mkResolved "#/once" [] (Some (RString "#/once")))] /\
  handlers (fst (exec_calling_back String_match no_throw leaving r "#/once")) = [].
Proof. repeat split. Qed.

(** No call of a registration method empties the post-navigation slot. *)
Lemma perform_keeps_afterEach :
  forall made r,
    afterEachHandler r <> None -> afterEachHandler (perform r made) <> None.
Proof.
  unfold perform. induction made as [|c made IH]; intros r H; [exact H|].
  simpl. apply IH. destruct c; simpl; try exact H. discriminate.
Qed.

Lemma run_bodies_keep_afterEach :
  forall body made r,
    afterEachHandler r <> None ->
    afterEachHandler (fold_left (run_body body) made r) <> None.
Proof.
  intros body made. induction made as [|c made IH]; intros r H; [exact H|].
  cbn [fold_left]. apply IH. apply perform_keeps_afterEach. exact H.
Qed.

(** Hence, with handlers that call back as well: when the slot is set
    before a resolution and the first call statement returns, the
    resolution makes exactly one post-navigation call, with its
    [ResolvedRoute]. *)
Lemma afterEach_once_calling_back :
  forall str_match throws body (r : Router) (u : string),
    afterEachHandler r <> None ->
    raised (make_calls throws
              (call_handler r (for_entries str_match u (handlers r))
                            (resolve str_match r u))) = false ->
    exists a,
      calls_of OfAfterEach
        (calls (snd (exec_calling_back str_match throws body r u)))
      = [mkCall OfAfterEach a (resolve str_match r u)].
Proof.
  intros str_match throws body r u H Hreturns.
  unfold exec_calling_back. cbv zeta. rewrite Hreturns. cbn [snd calls].
  set (first := calls (make_calls throws (call_handler r _ _))).
  assert (Hfirst : calls_of OfAfterEach first = []).
  { assert (Hin : forall c, In c first -> call_origin c <> OfAfterEach).
    { intros c Hc. apply (proj1 (make_calls_sound throws _)) in Hc.
      exact (proj1 (call_handler_origin _ _ _ _ Hc)). }
    induction first as [|c first IH]; [reflexivity|]. simpl.
    pose proof (Hin c (or_introl eq_refl)) as Hc.
    destruct (call_origin c); try congruence;
      apply IH; intros c' Hc'; apply Hin; right; exact Hc'. }
  pose proof (run_bodies_keep_afterEach body first r H) as Hslot.
  unfold calls_of in *. rewrite filter_app, Hfirst. unfold call_afterEach.
  destruct (afterEachHandler (fold_left (run_body body) first r)) as [a|];
    [|congruence].
  exists a. rewrite make_calls_one. reflexivity.
Qed.

(** ** Activation and deactivation *)

Lemma connect_cases :
  forall str_match throws (w : World),
    connect str_match throws w
    = if configured (router w) && String.eqb (location_hash w) ""
      then assign_hash match startAt (router w) with Some s => s | None => "" end
                       (addEventListener w)
      else run_exec str_match throws Activation (addEventListener w).
Proof.
  intros str_match throws w. unfold connect, configured, truthy. simpl.
  rewrite negb_involutive.
  destruct (startAt (router w)) as [s|]; reflexivity.
Qed.

Lemma configured_startAt :
  forall r s, startAt r = Some s -> s <> "" -> configured r = true.
Proof.
  intros r s H Hne. unfold configured, truthy. rewrite H.
  destruct (String.eqb s "") eqn:E; [|reflexivity].
  apply String.eqb_eq in E. contradiction.
Qed.

Lemma by_signal_app :
  forall h1 h2, by_signal (h1 ++ h2) = (by_signal h1 ++ by_signal h2)%list.
Proof. intros h1 h2. apply filter_app. Qed.

(** A router whose signal is aborted, and which has no listener attached,
    stays so whatever happens, and no step adds a resolution started by a
    navigation signal. *)
Lemma step_detached :
  forall str_match throws (w : World) (a : Action),
    listeners w = 0 -> aborted (router w) = true ->
    listeners (step str_match throws w a) = 0 /\
    aborted (router (step str_match throws w a)) = true /\
    by_signal (history (step str_match throws w a)) = by_signal (history w).
Proof.
  intros str_match throws w a Hl Ha. destruct a; simpl.
  - rewrite connect_cases.
    destruct (configured (router w) && String.eqb (location_hash w) "");
      simpl; rewrite Ha, Hl; repeat split; try reflexivity.
    rewrite by_signal_app. simpl. apply app_nil_r.
  - repeat split; reflexivity.
  - repeat split; assumption.
  - repeat split; assumption.
  - repeat split; assumption.
  - repeat split; assumption.
  - repeat split; assumption.
  - unfold popstate. rewrite Hl. simpl. repeat split; assumption.
Qed.

Lemma steps_detached :
  forall str_match throws (actions : list Action) (w : World),
    listeners w = 0 -> aborted (router w) = true ->
    listeners (steps str_match throws w actions) = 0 /\
    aborted (router (steps str_match throws w actions)) = true /\
    by_signal (history (steps str_match throws w actions))
    = by_signal (history w).
Proof.
  intros str_match throws actions. unfold steps.
  induction actions as [|a actions IH]; intros w Hl Ha; simpl.
  - repeat split; assumption.
  - destruct (step_detached str_match throws w a Hl Ha) as (Hl' & Ha' & Hs').
    destruct (IH (step str_match throws w a) Hl' Ha') as (Hl'' & Ha'' & Hs'').
    repeat split; try assumption. rewrite Hs''. exact Hs'.
Qed.

(** C7.  Activation of a router that is not yet connected.  When an initial
    route is configured ([startAt] is truthy) and the fragment is empty,
    [connect] sets the fragment to the initial route and resolves nothing
    itself; the assignment makes the host send one navigation signal, and
    its delivery to the one listener of the router is exactly one
    resolution, of the initial route.  In every other case [connect]
    resolves the current fragment once, at once, and leaves the fragment as
    it is. *)
Theorem connect_activation :
  forall str_match throws (w : World),
    listeners w = 0 -> aborted (router w) = false ->
    let w' := connect str_match throws w in
    listeners w' = 1 /\
    (forall s,
        startAt (router w) = Some s -> s <> "" -> location_hash w = "" ->
        location_hash w' = s /\
        history w' = history w /\
        signals w' = S (signals w) /\
        history (popstate str_match throws w')
        = (history w
           ++ [mkResolution Signal (resolve str_match (router w) s)
                            (exec str_match throws (router w) s)])%list) /\
    (configured (router w) = false \/ location_hash w <> "" ->
     location_hash w' = location_hash w /\
     signals w' = signals w /\
     history w'
     = (history w
        ++ [mkResolution Activation
              (resolve str_match (router w) (location_hash w))
              (exec str_match throws (router w) (location_hash w))])%list).
Proof.
  intros str_match throws w Hl Ha w'. subst w'. rewrite connect_cases.
  split; [|split].
  - destruct (configured _ && _); simpl; rewrite Ha, Hl; reflexivity.
  - intros s Hs Hne Hh.
    rewrite (configured_startAt _ s Hs Hne), Hs, Hh. simpl. repeat split.
    unfold popstate. simpl. rewrite Ha, Hl. reflexivity.
  - intros [Ht|Hh].
    + rewrite Ht. simpl. repeat split.
    + destruct (String.eqb (location_hash w) "") eqn:E.
      * apply String.eqb_eq in E. contradiction.
      * rewrite andb_false_r. simpl. repeat split.
Qed.

(** C7 on the example router, first in a page without fragment, then in a
    page whose fragment is [#/users/7]. *)
Lemma connect_activation_witness :
  (let w' := connect String_match no_throw (page "" demo_router) in
   location_hash w' = "#/home" /\ history w' = [] /\ signals w' = 1 /\
   map (fun x => map callee (calls (res_outcome x)))
       (history (popstate String_match no_throw w'))
   = [[1]]) /\
  (let w' := connect String_match no_throw (page "#/users/7" demo_router) in
   location_hash w' = "#/users/7" /\ signals w' = 0 /\
   map (fun x => map callee (calls (res_outcome x))) (history w') = [[2]]).
Proof.
  split.
  - destruct (connect_activation String_match no_throw (page "" demo_router)
                eq_refl eq_refl) as (_ & H & _).
    destruct (H "#/home" eq_refl) as (Hh & Hy & Hs & Hp);
      [discriminate|reflexivity|].
    cbv zeta. rewrite Hh, Hy, Hs, Hp. repeat split.
  - destruct (connect_activation String_match no_throw (page "#/users/7" demo_router)
                eq_refl eq_refl) as (_ & _ & H).
    destruct H as (Hh & Hs & Hy); [right; discriminate|].
    cbv zeta. rewrite Hh, Hs, Hy. repeat split.
Defined.

(** C8.  After [disconnect], whatever happens next (fragment changes,
    navigation signals, calls of the methods of the router, [connect]
    included), the router has no listener attached, so it is never
    connected again, and the resolutions started by a navigation signal are
    those that were there before: delivering one more signal resolves
    nothing. *)
Theorem disconnect_permanent :
  forall str_match throws (w : World) (actions : list Action),
    let w' := steps str_match throws (disconnect w) actions in
    listeners w' = 0 /\
    aborted (router w') = true /\
    by_signal (history w') = by_signal (history w) /\
    history (popstate str_match throws w') = history w'.
Proof.
  intros str_match throws w actions w'.
  destruct (steps_detached str_match throws actions (disconnect w)
              eq_refl eq_refl)
    as (Hl & Ha & Hs).
  fold w' in Hl, Ha, Hs.
  repeat split; try assumption.
  unfold popstate. rewrite Hl. reflexivity.
Qed.

(** C9.  [connect] called after [disconnect], with anything in between.
    What activation does at once still happens, once: the fragment is set to
    the initial route when one is configured and the fragment is empty,
    otherwise the current fragment is resolved.  But the listener is
    registered with a signal that is already aborted, so it is not attached,
    and from then on no navigation signal starts a resolution. *)
Theorem connect_after_disconnect :
  forall str_match throws (w0 : World) (between later : list Action),
    let w := steps str_match throws (disconnect w0) between in
    let w' := connect str_match throws w in
    listeners w' = 0 /\
    (forall s,
        startAt (router w) = Some s -> s <> "" -> location_hash w = "" ->
        location_hash w' = s /\ history w' = history w) /\
    (configured (router w) = false \/ location_hash w <> "" ->
     location_hash w' = location_hash w /\
     history w'
     = (history w
        ++ [mkResolution Activation
              (resolve str_match (router w) (location_hash w))
              (exec str_match throws (router w) (location_hash w))])%list) /\
    listeners (steps str_match throws w' later) = 0 /\
    by_signal (history (steps str_match throws w' later))
    = by_signal (history w0).
Proof.
  intros str_match throws w0 between later w w'.
  destruct (steps_detached str_match throws between (disconnect w0)
              eq_refl eq_refl)
    as (Hl & Ha & Hs).
  fold w in Hl, Ha, Hs.
  destruct (step_detached str_match throws w Connect Hl Ha) as (Hl' & Ha' & Hs').
  simpl in Hl', Ha', Hs'. fold w' in Hl', Ha', Hs'.
  destruct (steps_detached str_match throws later w' Hl' Ha')
    as (Hl'' & _ & Hs'').
  split; [exact Hl'|]. split; [|split; [|split]].
  - intros s Hstart Hne Hh. subst w'.
    rewrite connect_cases, (configured_startAt _ s Hstart Hne), Hstart, Hh.
    simpl. split; reflexivity.
  - intros Hcase. subst w'. rewrite connect_cases.
    destruct Hcase as [Ht|Hh].
    + rewrite Ht. simpl. split; reflexivity.
    + destruct (String.eqb (location_hash w) "") eqn:E.
      * apply String.eqb_eq in E. contradiction.
      * rewrite andb_false_r. simpl. split; reflexivity.
  - exact Hl''.
  - rewrite Hs'', Hs', Hs. reflexivity.
Qed.

(** C9 on the example router: disconnected, then the page goes to
    [#/users/7], then [connect], then two more navigations. *)
Lemma connect_after_disconnect_witness :
  let w := steps String_match no_throw (disconnect (page "" demo_router))
                 [Navigate "#/users/7"; Popstate] in
  let w' := connect String_match no_throw w in
  listeners w' = 0 /\
  map (fun x => (res_cause x, map callee (calls (res_outcome x)))) (history w')
  = [(Activation, [2])] /\
  by_signal (history (steps String_match no_throw w'
                        [Navigate "#/home"; Popstate; Navigate "#/x"; Popstate]))
  = [].
Proof.
  destruct (connect_after_disconnect String_match no_throw (page "" demo_router)
              [Navigate "#/users/7"; Popstate]
              [Navigate "#/home"; Popstate; Navigate "#/x"; Popstate])
    as (Hl & _ & Hsync & _ & Hsig).
  destruct Hsync as (_ & Hy); [right; discriminate|].
  cbv zeta. split; [exact Hl|]. split; [rewrite Hy; reflexivity|exact Hsig].
Defined.

(** ** The pattern compiler *)

Lemma push_value_spec :
  forall values i,
    push_value (nth_error values i)
    = match skipn i values with
      | [] => []
      | v :: _ => [piece v]
      end.
Proof.
  induction values as [|v values IH]; intros [|i]; simpl; try reflexivity.
  - destruct v; reflexivity.
  - apply IH.
Qed.

Lemma skipn_tail :
  forall (A : Type) (l : list A) i v rest,
    skipn i l = v :: rest -> skipn (S i) l = rest.
Proof.
  induction l as [|x l IH]; intros [|i] v rest H; simpl in *; try discriminate.
  - congruence.
  - destruct l; [destruct i; discriminate|]. apply (IH _ _ _ H).
Qed.

Lemma skipn_done :
  forall (A : Type) (l : list A) i, skipn i l = [] -> skipn (S i) l = [].
Proof.
  intros A l i H. apply skipn_all2.
  assert (length (skipn i l) = 0) by (rewrite H; reflexivity).
  rewrite length_skipn in *. lia.
Qed.

(** The loop over the indices builds the alternating list. *)
Lemma route_loop_alternate :
  forall segments values i,
    route_loop i segments values = alternate segments (skipn i values).
Proof.
  induction segments as [|seg segments IH]; intros values i; [reflexivity|].
  cbn [route_loop alternate]. rewrite push_value_spec, IH.
  destruct (skipn i values) as [|v rest] eqn:E.
  - rewrite (skipn_done _ _ _ E). reflexivity.
  - rewrite (skipn_tail _ _ _ _ _ E). reflexivity.
Qed.

(** Escaping leaves a leading [#/] as it is. *)
Lemma startsWith_escapeRegex :
  forall s, startsWith (escapeRegex s) "#/" = startsWith s "#/".
Proof.
  intros s. destruct s as [|c s]; [reflexivity|]. simpl.
  destruct (Ascii.eqb c "#") eqn:Ec.
  - apply Ascii.eqb_eq in Ec. subst c.
    change (is_special "#") with false. cbn iota. simpl.
    destruct s as [|d s]; [reflexivity|]. simpl.
    destruct (Ascii.eqb d "/") eqn:Ed.
    + apply Ascii.eqb_eq in Ed. subst d.
      change (is_special "/") with false. reflexivity.
    + destruct (is_special d); simpl; [reflexivity|rewrite Ed; reflexivity].
  - destruct (is_special c); simpl; [|rewrite Ec; reflexivity].
    reflexivity.
Qed.

(** What [route] does, case by case: the test is on the first segment. *)
Lemma route_cases :
  forall segments values,
    route segments values
    = match segments with
      | [] => Throw TypeError
      | first :: _ =>
          if startsWith first "#/"
          then Return (new_RegExp ("^" ++ join (alternate segments values) ++ "$"))
          else Throw (route_error (alternate segments values))
      end.
Proof.
  intros segments values. unfold route.
  rewrite route_loop_alternate. change (skipn 0 values) with values.
  destruct segments as [|first rest]; [reflexivity|].
  cbn [alternate]. cbv zeta.
  rewrite (startsWith_escapeRegex first).
  destruct (startsWith first "#/"); reflexivity.
Qed.

(** C3.  [route`${"#/app"}/users`]: the assembled text is [#/app/users],
    which begins with [#/], and [route] raises its validation error all the
    same, with a message that quotes that very text: the test reads the
    first segment, here the empty string, not the assembled text. *)
Theorem route_rejects_prefix_from_value :
  join (alternate [""; "/users"] [VString "#/app"]) = "#/app/users" /\
  startsWith "#/app/users" "#/" = true /\
  route [""; "/users"] [VString "#/app"]
  = Throw (Error ("Routes must start with " ++ dquote ++ "#/" ++ dquote
                    ++ "; route is #/app/users")).
Proof. repeat split. Qed.

(** ** The matcher *)

Section RunInvariant.

(** A property of the states of the matcher that every elementary move
    preserves holds of the state in which the matcher hands over to its
    continuation. *)
Variable P : mstate -> Prop.

Hypothesis P_advance :
  forall x d rest, P x -> m_rest x = d :: rest -> P (advance x rest).

Hypothesis P_capture :
  forall c x y, P x -> P y -> P (set_capture c x y).

Hypothesis P_drop :
  forall ids x,
    P x ->
    P {| m_pos := m_pos x; m_rest := m_rest x;
         m_caps := drop_captures ids (m_caps x) |}.

Lemma one_char_hands_over : forall ok, hands_over P (one_char ok).
Proof.
  intros ok x k z Hx H. unfold one_char in H.
  destruct (m_rest x) as [|d rest] eqn:E; [discriminate|].
  destruct (ok d); [|discriminate].
  exists (advance x rest). split; [|exact H]. exact (P_advance x d rest Hx E).
Qed.

Lemma repeat_matcher_hands_over :
  forall m inner greedy,
    hands_over P m ->
    forall fuel min max,
      hands_over P (repeat_matcher m inner greedy fuel min max).
Proof.
  intros m inner greedy Hm fuel.
  induction fuel as [|fuel IH]; intros min max x k z Hx H; simpl in H.
  - destruct (is_zero max); [|discriminate]. eauto.
  - destruct (is_zero max); [eauto|].
    set (d := fun y : mstate =>
                if Nat.eqb min 0 && Nat.eqb (m_pos y) (m_pos x) then None
                else repeat_matcher m inner greedy fuel (Nat.pred min)
                                    (option_map Nat.pred max) y k) in H.
    assert (Hd : forall xr, P xr -> m xr d = Some z ->
                            exists y, P y /\ k y = Some z).
    { intros xr Hxr Hrun. destruct (Hm xr d z Hxr Hrun) as (y & Hy & Hdy).
      unfold d in Hdy.
      destruct (Nat.eqb min 0 && Nat.eqb (m_pos y) (m_pos x)); [discriminate|].
      exact (IH _ _ y k z Hy Hdy). }
    pose proof (P_drop inner x Hx) as Hxr.
    destruct (negb (Nat.eqb min 0)); [exact (Hd _ Hxr H)|].
    destruct (negb greedy).
    + destruct (k x) as [z'|] eqn:Ek.
      * injection H as <-. eauto.
      * exact (Hd _ Hxr H).
    + destruct (m _ d) as [z'|] eqn:Em.
      * injection H as <-. exact (Hd _ Hxr Em).
      * eauto.
Qed.

Lemma run_hands_over : forall r, hands_over P (run r).
Proof.
  induction r as [|c| |invert items| | |a IHa b IHb|a IHa b IHb
                  |capture body IH|min max greedy body IH];
    intros x k z Hx H; cbn [run] in H.
  - eauto.
  - exact (one_char_hands_over _ x k z Hx H).
  - exact (one_char_hands_over _ x k z Hx H).
  - exact (one_char_hands_over _ x k z Hx H).
  - destruct (Nat.eqb (m_pos x) 0); [eauto|discriminate].
  - destruct (m_rest x); [eauto|discriminate].
  - destruct (IHa x _ z Hx H) as (y & Hy & Hb). exact (IHb y k z Hy Hb).
  - destruct (run a x k) as [z'|] eqn:Ea.
    + injection H as <-. exact (IHa x k z' Hx Ea).
    + exact (IHb x k z Hx H).
  - destruct (IH x _ z Hx H) as (y & Hy & Hk).
    exists (set_capture capture x y). split; [|exact Hk].
    exact (P_capture capture x y Hx Hy).
  - exact (repeat_matcher_hands_over (run body) _ greedy IH _ min max x k z Hx H).
Qed.

End RunInvariant.

Lemma chars_text : forall l, chars (text l) = l.
Proof. intros l. apply list_ascii_of_string_of_list_ascii. Qed.

Lemma text_chars : forall s, text (chars s) = s.
Proof. intros s. apply string_of_list_ascii_of_string. Qed.

Lemma drop_captures_incl :
  forall ids caps p, In p (drop_captures ids caps) -> In p caps.
Proof.
  intros ids caps p H. unfold drop_captures in H.
  apply filter_In in H. tauto.
Qed.

(** The matcher stays within its subject. *)
Lemma run_within :
  forall u r, hands_over (within u) (run r).
Proof.
  intros u. apply run_hands_over.
  - intros x d rest ((before & Hu & Hlen) & Hcaps) Hrest. split.
    + exists (before ++ [d])%list. simpl. split.
      * rewrite Hu, Hrest, <- app_assoc. reflexivity.
      * rewrite length_app. simpl. lia.
    + exact Hcaps.
  - intros c x y ((before & Hu & Hlen) & _) (Hy & Hcaps).
    destruct c as [[i name]|]; [|split; assumption].
    split; [exact Hy|]. simpl. intros j s [Hnew|Hold].
    + injection Hnew as _ <-.
      exists before, (skipn (m_pos y - m_pos x) (m_rest x)).
      rewrite chars_text, firstn_skipn. exact Hu.
    + apply (Hcaps j s). exact (drop_captures_incl _ _ _ Hold).
  - intros ids x (Hpos & Hcaps). split; [exact Hpos|]. simpl.
    intros i s H. apply (Hcaps i s). exact (drop_captures_incl _ _ _ H).
Qed.

Lemma run_from_within :
  forall u r rest pos before y,
    chars u = (before ++ rest)%list -> length before = pos ->
    run r {| m_pos := pos; m_rest := rest; m_caps := [] |} Some = Some y ->
    within u y.
Proof.
  intros u r rest pos before y Hu Hlen E.
  destruct (run_within u r {| m_pos := pos; m_rest := rest; m_caps := [] |}
              Some y) as (y' & Hy' & Hk).
  - split; [exists before; split; assumption|]. intros i s [].
  - exact E.
  - injection Hk as <-. exact Hy'.
Qed.

(** What a successful search returns. *)
Lemma search_within :
  forall u r rest pos before,
    chars u = (before ++ rest)%list -> length before = pos ->
    forall f,
      search r pos rest = Some f ->
      pos <= f_index f /\
      (exists skipped,
          chars u = (skipped ++ f_from f)%list /\ length skipped = f_index f) /\
      within u (f_end f) /\
      run r {| m_pos := f_index f; m_rest := f_from f; m_caps := [] |} Some
      = Some (f_end f).
Proof.
  intros u r rest. induction rest as [|c rest IH]; intros pos before Hu Hlen f H;
    simpl in H.
  - destruct (run r _ Some) as [y|] eqn:E; [|discriminate].
    injection H as <-. simpl. split; [lia|]. split; [eauto|].
    split; [|exact E]. exact (run_from_within u r _ _ _ y Hu Hlen E).
  - destruct (run r _ Some) as [y|] eqn:E.
    + injection H as <-. simpl. split; [lia|]. split; [eauto|].
      split; [|exact E]. exact (run_from_within u r _ _ _ y Hu Hlen E).
    + destruct (IH (S pos) (before ++ [c])%list) with (f := f)
        as (Hle & Hfrom & Hend & Hrun).
      * rewrite Hu, <- app_assoc. reflexivity.
      * rewrite length_app. simpl. lia.
      * exact H.
      * split; [lia|]. split; [exact Hfrom|]. split; assumption.
Qed.

(** ** The params of a resolution *)

(** The entry that the loop selects, when it is a pattern. *)
Lemma for_entries_selected :
  forall str_match u entries ref rx,
    route2 (for_entries str_match u entries) = Some (RRegExp ref rx) ->
    exists m,
      str_match u rx = Some m /\
      params_ (for_entries str_match u entries) = Some (spread (groups m)).
Proof.
  intros str_match u entries ref rx.
  induction entries as [|[k v] rest IH]; simpl; [discriminate|].
  destruct k as [s|ref' rx'].
  - destruct (String.eqb u s); [discriminate|exact IH].
  - destruct (str_match u rx') as [m|] eqn:E; [|exact IH].
    simpl. intros H. injection H as _ <-. eauto.
Qed.

Lemma groups_object_keys :
  forall r caps,
    map fst (spread (groups_object r caps)) = group_names r.
Proof.
  intros r caps. unfold groups_object, group_names.
  destruct (named (group_list r)) as [|p names] eqn:E; [reflexivity|].
  simpl. f_equal. rewrite map_map. reflexivity.
Qed.






(** ** Escaped text as a pattern *)

Lemma is_special_false :
  forall c,
    is_special c = false ->
    Ascii.eqb c "." = false /\ Ascii.eqb c "*" = false /\
    Ascii.eqb c "+" = false /\ Ascii.eqb c "?" = false /\
    Ascii.eqb c "^" = false /\ Ascii.eqb c "$" = false /\
    Ascii.eqb c "{" = false /\ Ascii.eqb c "}" = false /\
    Ascii.eqb c "(" = false /\ Ascii.eqb c ")" = false /\
    Ascii.eqb c "|" = false /\ Ascii.eqb c "[" = false /\
    Ascii.eqb c "]" = false /\ Ascii.eqb c "\" = false.
Proof.
  intros c H. unfold is_special, special_chars in H. simpl in H.
  repeat (apply orb_false_elim in H; destruct H as [? H]).
  repeat split; assumption.
Qed.

(** An escaped special character is read as that character. *)
Lemma escape_atom_special :
  forall c, is_special c = true -> escape_atom c = Some (Char c).
Proof.
  intros c H. unfold is_special, special_chars in H. simpl in H.
  repeat (apply orb_prop in H; destruct H as [H|H]);
    try discriminate; apply Ascii.eqb_eq in H; subst c; reflexivity.
Qed.

(** A character that is not special is read as itself. *)
Lemma parse_loop_plain :
  forall c st rest,
    is_special c = false ->
    parse_loop InPattern st (c :: rest)
    = parse_loop InPattern (push_term (Char c) st) rest.
Proof.
  intros c st rest H.
  destruct (is_special_false c H)
    as (Hdot & Hstar & Hplus & Hq & Hhat & Hdollar & Hlb & Hrb & Hlp & Hrp
        & Hbar & Hls & Hrs & Hbs).
  cbn [parse_loop]. unfold is_quantifier.
  rewrite Hbs, Hlp, Hrp, Hbar, Hstar, Hplus, Hq, Hls, Hrs, Hlb, Hrb, Hdot,
    Hhat, Hdollar.
  reflexivity.
Qed.

(** The escaped form of a text is read as that text, character for
    character. *)
Lemma parse_loop_escaped :
  forall s st rest,
    parse_loop InPattern st (chars (escapeRegex s) ++ rest)
    = parse_loop InPattern (push_terms (literal s) st) rest.
Proof.
  induction s as [|c s IH]; intros st rest; [reflexivity|].
  cbn [escapeRegex]. destruct (is_special c) eqn:Hc.
  - change (chars (String "\" (String c (escapeRegex s))) ++ rest)%list
      with ("\"%char :: c :: (chars (escapeRegex s) ++ rest))%list.
    cbn [parse_loop]. change (Ascii.eqb "\" "\") with true. cbv iota.
    rewrite (escape_atom_special c Hc). apply IH.
  - change (chars (String c (escapeRegex s)) ++ rest)%list
      with (c :: (chars (escapeRegex s) ++ rest))%list.
    rewrite (parse_loop_plain c st _ Hc). apply IH.
Qed.

(** ** Anchored patterns *)

Lemma run_sequence :
  forall t ts x k,
    run (sequence (t :: ts)) x k = run t x (fun y => run (sequence ts) y k).
Proof. intros t [|t' ts] x k; reflexivity. Qed.

Lemma run_continues :
  forall r x k z, run r x k = Some z -> exists y, k y = Some z.
Proof.
  intros r x k z H.
  destruct (run_hands_over (fun _ => True)) with (r := r) (x := x) (k := k) (z := z)
    as (y & _ & Hy); auto.
  exists y. exact Hy.
Qed.

(** A sequence that ends with [$] hands over at the end of the subject. *)
Lemma run_to_end :
  forall ts x k z,
    run (sequence (ts ++ [LineEnd])) x k = Some z ->
    exists y, m_rest y = [] /\ k y = Some z.
Proof.
  induction ts as [|t ts IH]; intros x k z H.
  - simpl in H. destruct (m_rest x) eqn:E; [|discriminate]. eauto.
  - change ((t :: ts) ++ [LineEnd])%list with (t :: (ts ++ [LineEnd]))%list in H.
    rewrite run_sequence in H.
    destruct (run_continues _ _ _ _ H) as (y & Hy). exact (IH y k z Hy).
Qed.

(** An anchored pattern matches from the start of the subject to its end. *)
Lemma run_anchored :
  forall ts x z,
    run (anchored ts) x Some = Some z -> m_pos x = 0 /\ m_rest z = [].
Proof.
  intros ts x z H. unfold anchored in H. rewrite run_sequence in H.
  cbn [run] in H. destruct (Nat.eqb (m_pos x) 0) eqn:E; [|discriminate].
  apply Nat.eqb_eq in E. split; [exact E|].
  destruct (run_to_end ts x Some z H) as (y & Hy & Hz).
  injection Hz as <-. exact Hy.
Qed.

Lemma firstn_whole :
  forall (A : Type) (l : list A), firstn (length l) l = l.
Proof. intros A l. apply firstn_all. Qed.

(** What an anchored pattern matches is the whole subject. *)
Lemma search_anchored :
  forall ts u f,
    search (anchored ts) 0 (chars u) = Some f -> matched_text f = u.
Proof.
  intros ts u f H.
  destruct (search_within u (anchored ts) (chars u) 0 [] eq_refl eq_refl f H)
    as (_ & (skipped & Hu & Hlen) & ((before & Hb & Hpos) & _) & Hrun).
  destruct (run_anchored ts _ _ Hrun) as (Hstart & Hend). simpl in Hstart.
  rewrite Hstart in Hlen. destruct skipped; [|discriminate]. simpl in Hu.
  rewrite Hend, app_nil_r in Hb.
  unfold matched_text. rewrite Hstart, Nat.sub_0_r, <- Hpos, <- Hu, Hb.
  rewrite firstn_whole, <- Hb. apply text_chars.
Qed.

(** Only a match of the whole subject succeeds for a pattern, without the
    global flag, that is read as an anchored one. *)
Lemma anchored_full_match :
  forall rx ts,
    re_global rx = false ->
    parse (re_pattern rx) = Some (anchored ts) ->
    forall u m, String_match u rx = Some m -> hd_error (elements m) = Some (Some u).
Proof.
  intros rx ts Hg Hp u m H. unfold String_match in H.
  destruct (re_flags rx); [|discriminate]. rewrite Hp, Hg in H.
  unfold RegExpBuiltinExec in H.
  destruct (search (anchored ts) 0 (chars u)) as [f|] eqn:E; [|discriminate].
  injection H as <-. simpl. rewrite (search_anchored ts u f E). reflexivity.
Qed.

(** ** Placeholders as patterns *)

Lemma chars_app : forall a b, chars (a ++ b) = (chars a ++ chars b)%list.
Proof.
  induction a as [|c a IH]; intros b; [reflexivity|].
  simpl. f_equal. apply IH.
Qed.

Lemma is_word_plain :
  forall c,
    is_word c = true ->
    is_line_terminator c = false /\ Ascii.eqb c "\" = false /\
    Ascii.eqb c "/" = false /\ Ascii.eqb c "[" = false /\
    Ascii.eqb c "]" = false /\ Ascii.eqb c ">" = false.
Proof.
  intros [[] [] [] [] [] [] [] []] H; try discriminate H; repeat split.
Qed.

(** The [source] of a pattern leaves letters, digits and underscores as they
    are. *)
Lemma EscapeRegExpSource_word :
  forall l in_class rest,
    forallb is_word l = true ->
    EscapeRegExpSource in_class (l ++ rest)
    = (l ++ EscapeRegExpSource in_class rest)%list.
Proof.
  induction l as [|c l IH]; intros in_class rest H; [reflexivity|].
  simpl in H. apply andb_prop in H. destruct H as (Hc & Hl).
  destruct (is_word_plain c Hc) as (Hlt & Hbs & Hsl & Hlb & Hrb & _).
  change ((c :: l) ++ rest)%list with (c :: (l ++ rest))%list.
  cbn [EscapeRegExpSource]. rewrite Hlt, Hbs, Hsl, Hlb, Hrb. simpl.
  f_equal. apply IH. exact Hl.
Qed.

Lemma identifier_word :
  forall name, identifier name = true -> forallb is_word (chars name) = true.
Proof.
  intros name H. unfold identifier in H.
  destruct (chars name); [discriminate|].
  apply andb_prop in H. tauto.
Qed.

(** The [source] of a placeholder is the text it was built from. *)
Lemma source_param :
  forall name,
    identifier name = true -> source (param name) = "(?<" ++ name ++ ">\w+)".
Proof.
  intros name H. unfold source, param, new_RegExp. cbn [re_pattern].
  change ("(?<" ++ name ++ ">\w+)")
    with (String "(" (String "?" (String "<" (name ++ ">\w+)")))).
  cbv iota. unfold chars at 1. cbn [list_ascii_of_string].
  fold (chars (name ++ ">\w+)")). rewrite chars_app.
  cbn [EscapeRegExpSource]. simpl is_line_terminator. cbv iota. simpl Ascii.eqb.
  cbv iota. simpl andb. cbv iota.
  rewrite (EscapeRegExpSource_word _ _ _ (identifier_word name H)).
  simpl EscapeRegExpSource. unfold text. simpl string_of_list_ascii.
  do 3 f_equal.
  rewrite <- (string_of_list_ascii_of_string (name ++ ">\w+)")).
  fold (chars (name ++ ">\w+)")). rewrite chars_app. reflexivity.
Qed.

(** Reading the name of a group up to its closing [>]. *)
Lemma parse_name :
  forall l acc st rest,
    forallb is_word l = true ->
    parse_loop (InName acc) st (l ++ ">"%char :: rest)
    = match (rev l ++ acc)%list with
      | [] => None
      | _ =>
          let name := text (rev (rev l ++ acc)) in
          if existsb (String.eqb name) (p_names st) then None
          else parse_loop InPattern (open_group true (Some name) st) rest
      end.
Proof.
  induction l as [|c l IH]; intros acc st rest H.
  - simpl. destruct acc; reflexivity.
  - simpl in H. apply andb_prop in H. destruct H as (Hc & Hl).
    destruct (is_word_plain c Hc) as (_ & _ & _ & _ & _ & Hgt).
    change ((c :: l) ++ ">"%char :: rest)%list
      with (c :: (l ++ ">"%char :: rest))%list.
    cbn [parse_loop]. rewrite Hgt, Hc, (IH (c :: acc) st rest Hl).
    simpl rev. rewrite <- app_assoc. reflexivity.
Qed.

(** A placeholder is read as a named group around [\w+], unless its name is
    already taken. *)
Lemma parse_loop_hole :
  forall name st rest,
    identifier name = true ->
    parse_loop InPattern st (chars ("(?<" ++ name ++ ">\w+)") ++ rest)
    = if existsb (String.eqb name) (p_names st) then None
      else parse_loop InPattern (push_hole name st) rest.
Proof.
  intros name st rest H.
  change (chars ("(?<" ++ name ++ ">\w+)") ++ rest)%list
    with ("("%char :: "?"%char :: "<"%char :: (chars (name ++ ">\w+)") ++ rest))%list.
  rewrite chars_app, <- app_assoc.
  change (chars ">\w+)" ++ rest)%list
    with (">"%char :: "\"%char :: "w"%char :: "+"%char :: ")"%char :: rest)%list.
  cbn [parse_loop]. simpl Ascii.eqb. cbv iota.
  rewrite (parse_name _ [] st _ (identifier_word name H)).
  rewrite app_nil_r, rev_involutive.
  unfold identifier in H.
  destruct (chars name) as [|c l] eqn:E; [discriminate|].
  destruct (rev (c :: l)) eqn:Er.
  { apply (f_equal (@length ascii)) in Er. rewrite length_rev in Er.
    discriminate. }
  rewrite <- E, text_chars. cbv zeta.
  destruct (existsb (String.eqb name) (p_names st)); reflexivity.
Qed.

Lemma push_terms_app :
  forall a b st, push_terms (a ++ b) st = push_terms b (push_terms a st).
Proof. intros a b st. apply fold_left_app. Qed.

(** What the parser holds after a list of terms. *)
Lemma push_terms_state :
  forall ts st,
    push_terms ts st
    = {| p_outer := p_outer st;
         p_cur := {| f_capture := f_capture (p_cur st);
                     f_alts := f_alts (p_cur st);
                     f_terms := (rev ts ++ f_terms (p_cur st))%list |};
         p_next := p_next st; p_names := p_names st |}.
Proof.
  induction ts as [|t ts IH]; intros st.
  - destruct st as [outer [capture alts terms] next names]. reflexivity.
  - change (push_terms (t :: ts) st) with (push_terms ts (push_term t st)).
    rewrite IH. simpl. rewrite <- app_assoc. reflexivity.
Qed.

(** What the parser holds after a list of pieces. *)
Lemma read_tokens_state :
  forall ts st,
    fold_left read_token ts st
    = {| p_outer := p_outer st;
         p_cur := {| f_capture := f_capture (p_cur st);
                     f_alts := f_alts (p_cur st);
                     f_terms := (rev (token_nodes (p_next st) ts)
                                   ++ f_terms (p_cur st))%list |};
         p_next := length (hole_names ts) + p_next st;
         p_names := (rev (hole_names ts) ++ p_names st)%list |}.
Proof.
  induction ts as [|[s|name] ts IH]; intros st.
  - destruct st as [outer [capture alts terms] next names]. reflexivity.
  - cbn [fold_left read_token]. rewrite IH, push_terms_state. simpl.
    rewrite rev_app_distr, <- app_assoc. reflexivity.
  - cbn [fold_left read_token]. rewrite IH. simpl.
    rewrite <- !app_assoc, Nat.add_succ_r. reflexivity.
Qed.

Lemma append_empty : forall s : string, s ++ "" = s.
Proof. induction s as [|c s IH]; simpl; congruence. Qed.

Lemma join_cons : forall x l, join (x :: l) = x ++ join l.
Proof.
  intros x l. unfold join. destruct l as [|y l].
  - simpl. symmetry. apply append_empty.
  - reflexivity.
Qed.

(** The text of a list of pieces is read piece by piece, provided the names
    of the holes are identifiers, differ from one another, and are not
    taken already. *)
Lemma parse_loop_tokens :
  forall ts st rest,
    Forall (fun n => identifier n = true) (hole_names ts) ->
    NoDup (hole_names ts ++ p_names st) ->
    parse_loop InPattern st (chars (join (map token_text ts)) ++ rest)
    = parse_loop InPattern (fold_left read_token ts st) rest.
Proof.
  induction ts as [|[s|name] ts IH]; intros st rest Hid Hnodup.
  - reflexivity.
  - cbn [map fold_left read_token token_text].
    rewrite join_cons, chars_app, <- app_assoc, parse_loop_escaped.
    apply IH; [exact Hid|]. rewrite push_terms_state. exact Hnodup.
  - cbn [map fold_left read_token token_text].
    rewrite join_cons, chars_app, <- app_assoc.
    simpl in Hid, Hnodup. inversion Hid as [|? ? Hname Hrest]; subst.
    inversion Hnodup as [|? ? Hfresh Hnodup']; subst.
    rewrite (parse_loop_hole name st _ Hname).
    destruct (existsb (String.eqb name) (p_names st)) eqn:E.
    + exfalso. apply existsb_exists in E. destruct E as (n & Hin & Hn).
      apply String.eqb_eq in Hn. subst n.
      apply Hfresh. apply in_or_app. right. exact Hin.
    + apply IH; [exact Hrest|]. simpl.
      apply NoDup_Add with (a := name) (l := (hole_names ts ++ p_names st)%list).
      * apply Add_app.
      * split; assumption.
Qed.

(** ** Literal text in a pattern *)

(** A run of literal characters matches when the subject goes on with those
    characters, and then the matcher goes on behind them. *)
Lemma run_literal :
  forall l tail p rest caps k,
    run (sequence (map Char l ++ tail))
        {| m_pos := p; m_rest := (l ++ rest)%list; m_caps := caps |} k
    = run (sequence tail)
          {| m_pos := length l + p; m_rest := rest; m_caps := caps |} k.
Proof.
  induction l as [|c l IH]; intros tail p rest caps k; [reflexivity|].
  change (map Char (c :: l) ++ tail)%list
    with (Char c :: (map Char l ++ tail))%list.
  rewrite run_sequence. cbn [run]. unfold one_char. simpl m_rest. cbv iota.
  rewrite Ascii.eqb_refl. unfold advance. simpl.
  rewrite IH, Nat.add_succ_r. reflexivity.
Qed.

Lemma run_literal_only :
  forall l tail x k z,
    run (sequence (map Char l ++ tail)) x k = Some z ->
    exists rest, m_rest x = (l ++ rest)%list.
Proof.
  induction l as [|c l IH]; intros tail x k z H;
    [exists (m_rest x); reflexivity|].
  change (map Char (c :: l) ++ tail)%list
    with (Char c :: (map Char l ++ tail))%list in H.
  rewrite run_sequence in H. cbn [run] in H. unfold one_char in H.
  destruct (m_rest x) as [|d rest] eqn:E; [discriminate|].
  destruct (Ascii.eqb c d) eqn:Ecd; [|discriminate].
  apply Ascii.eqb_eq in Ecd. subst d.
  destruct (IH _ _ _ _ H) as (rest' & Hrest). simpl in Hrest.
  exists rest'. rewrite Hrest. reflexivity.
Qed.

Lemma literal_app : forall a b, literal (a ++ b) = (literal a ++ literal b)%list.
Proof. intros a b. unfold literal. rewrite chars_app. apply map_app. Qed.

(** Pieces without holes are read as their raw text. *)
Lemma token_nodes_literal :
  forall ts i, hole_names ts = [] -> token_nodes i ts = literal (raw_text ts).
Proof.
  induction ts as [|[s|name] ts IH]; intros i H; simpl in *.
  - reflexivity.
  - rewrite literal_app, (IH i H). reflexivity.
  - discriminate.
Qed.

(** An anchored literal matches its text and nothing else. *)
Lemma search_anchored_literal :
  forall t u,
    search (anchored (literal t)) 0 (chars u) <> None <-> u = t.
Proof.
  intros t u. split.
  - intros H. destruct (search _ 0 (chars u)) as [f|] eqn:E; [|congruence].
    destruct (search_within u _ (chars u) 0 [] eq_refl eq_refl f E)
      as (_ & (skipped & Hu & Hlen) & _ & Hrun).
    destruct (run_anchored _ _ _ Hrun) as (Hstart & Hend). simpl in Hstart.
    rewrite Hstart in Hlen, Hrun. destruct skipped; [|discriminate].
    simpl in Hu. unfold anchored in Hrun. rewrite run_sequence in Hrun.
    cbn [run] in Hrun. simpl in Hrun. unfold literal in Hrun.
    destruct (run_literal_only _ _ _ _ _ Hrun) as (rest & Hrest).
    simpl in Hrest. rewrite Hrest, run_literal in Hrun.
    cbn [sequence run] in Hrun. simpl in Hrun.
    destruct rest; [|discriminate].
    rewrite app_nil_r in Hrest.
    rewrite <- (text_chars u), <- (text_chars t), Hu, Hrest. reflexivity.
  - intros ->. destruct (chars t) as [|c l] eqn:E.
    + unfold literal. rewrite E. simpl. discriminate.
    + cbn [search]. unfold anchored. rewrite run_sequence. cbn [run].
      simpl Nat.eqb. cbv iota. unfold literal. rewrite E.
      rewrite <- (app_nil_r (c :: l)) at 2. rewrite run_literal.
      simpl. discriminate.
Qed.

(** ** Compiled routes *)

(** With strings and placeholders for values, the pieces [route] assembles
    are the texts of the tokens. *)
Lemma alternate_tokens :
  forall segments values,
    Forall (fun n => identifier n = true) (hole_names (tokens segments values)) ->
    alternate segments (map to_value values)
    = map token_text (tokens segments values).
Proof.
  induction segments as [|seg segments IH]; intros values H; [reflexivity|].
  destruct values as [|[s|name] values]; simpl in *.
  - f_equal. apply (IH []). exact H.
  - f_equal. f_equal. apply IH. exact H.
  - inversion H as [|? ? Hname Hrest]; subst.
    f_equal. f_equal; [exact (source_param name Hname)|]. apply IH. exact Hrest.
Qed.

(** The escaped form of a text is the pattern of that text. *)
Lemma parse_escaped :
  forall s, parse (escapeRegex s) = Some (sequence (literal s)).
Proof.
  intros s. unfold parse.
  rewrite <- (app_nil_r (chars (escapeRegex s))), parse_loop_escaped.
  rewrite push_terms_state. simpl.
  unfold close_frame. simpl. rewrite app_nil_r, rev_involutive. reflexivity.
Qed.

(** The text [^...$] around pieces is read as an anchored pattern. *)
Lemma parse_anchored_tokens :
  forall ts,
    Forall (fun n => identifier n = true) (hole_names ts) ->
    NoDup (hole_names ts) ->
    parse ("^" ++ join (map token_text ts) ++ "$")
    = Some (anchored (token_nodes 1 ts)).
Proof.
  intros ts Hid Hnodup. unfold parse.
  change (chars ("^" ++ join (map token_text ts) ++ "$"))
    with ("^"%char :: chars (join (map token_text ts) ++ "$")).
  rewrite chars_app. cbn [parse_loop]. simpl Ascii.eqb. cbv iota.
  unfold is_quantifier. simpl Ascii.eqb. cbv iota. simpl orb. cbv iota.
  rewrite parse_loop_tokens.
  - rewrite read_tokens_state. simpl.
    unfold close_frame. simpl.
    rewrite rev_app_distr, rev_involutive. reflexivity.
  - exact Hid.
  - simpl. rewrite app_nil_r. exact Hnodup.
Qed.

(** What a compiled route is.  When [route] returns, the text of the pattern
    is [^], then the literal segments and the interpolated values in
    alternating order, then [$]; a segment or a string value stands there
    escaped, and its escaped form is the pattern of that very text,
    character for character; a pattern value stands there by its source,
    unchanged.  When every value is a string or a placeholder made by
    [param] (the names being identifiers, no two the same), the compiled
    pattern is one anchored alternative and only a match of the whole
    fragment succeeds; without placeholders it matches the text of the
    route and nothing else. *)
Theorem route_pattern :
  forall segments values rx,
    route segments values = Return rx ->
    re_pattern rx = "^" ++ join (alternate segments values) ++ "$" /\
    re_global rx = false /\
    (forall s, parse (escapeRegex s) = Some (sequence (literal s))) /\
    (forall r, piece (VRegExp r) = source r) /\
    (forall simple_values,
        values = map to_value simple_values ->
        Forall (fun n => identifier n = true)
               (hole_names (tokens segments simple_values)) ->
        NoDup (hole_names (tokens segments simple_values)) ->
        parse (re_pattern rx)
        = Some (anchored (token_nodes 1 (tokens segments simple_values))) /\
        (forall u m,
            String_match u rx = Some m ->
            hd_error (elements m) = Some (Some u)) /\
        (hole_names (tokens segments simple_values) = [] ->
         forall u,
           String_match u rx <> None
           <-> u = raw_text (tokens segments simple_values))).
Proof.
  intros segments values rx H. rewrite route_cases in H.
  assert (Hrx : rx = new_RegExp ("^" ++ join (alternate segments values) ++ "$")).
  { destruct segments as [|first rest]; [discriminate|].
    destruct (startsWith first "#/"); [|discriminate].
    injection H as <-. reflexivity. }
  clear H. subst rx. cbn [re_pattern re_global re_flags new_RegExp].
  split; [reflexivity|]. split; [reflexivity|].
  split; [exact parse_escaped|]. split; [reflexivity|].
  intros simple_values -> Hid Hnodup.
  rewrite (alternate_tokens _ _ Hid).
  pose proof (parse_anchored_tokens _ Hid Hnodup) as Hparse.
  split; [exact Hparse|]. split.
  - intros u m Hm.
    exact (anchored_full_match (new_RegExp _) _ eq_refl Hparse u m Hm).
  - intros Hnone u. unfold String_match. cbn [re_pattern re_global re_flags new_RegExp].
    rewrite Hparse, (token_nodes_literal _ 1 Hnone). unfold RegExpBuiltinExec.
    rewrite <- (search_anchored_literal (raw_text _) u).
    destruct (search _ 0 (chars u)); split; congruence.
Qed.

(** [route`#/users/${param("id")}`] and [route`#/foo/${"*"}/bar`]. *)
Lemma route_pattern_examples :
  route ["#/users/"; ""] (map to_value [SParam "id"])
  = Return users_pattern /\
  (forall u m, String_match u users_pattern = Some m ->
               hd_error (elements m) = Some (Some u)) /\
  route ["#/foo/"; "/bar"] (map to_value [SString "*"])
  = Return (new_RegExp "^#/foo/\*/bar$") /\
  (forall u, String_match u (new_RegExp "^#/foo/\*/bar$") <> None
             <-> u = "#/foo/*/bar").
Proof.
  split; [reflexivity|]. split; [|split; [reflexivity|]].
  - destruct (route_pattern ["#/users/"; ""] (map to_value [SParam "id"])
                users_pattern eq_refl) as (_ & _ & _ & _ & H).
    destruct (H [SParam "id"] eq_refl) as (_ & Hfull & _).
    + repeat constructor.
    + repeat constructor. intros [].
    + exact Hfull.
  - destruct (route_pattern ["#/foo/"; "/bar"] (map to_value [SString "*"])
                (new_RegExp "^#/foo/\*/bar$") eq_refl) as (_ & _ & _ & _ & H).
    destruct (H [SString "*"] eq_refl) as (_ & _ & Hlit).
    + constructor.
    + constructor.
    + exact (Hlit eq_refl).
Qed.

(** C4.  [route`#/${/a|b/}`]: the value is put between the anchors as it
    is, without a group around it, so the compiled pattern is [/^#\/a|b$/],
    whose [^] holds the first alternative only and whose [$] the second
    only.  It matches [zzb], where what is matched is [b] and not the whole
    fragment, and it matches [#/azz]: other matches than full-string ones
    succeed. *)
Theorem alternation_is_not_anchored :
  either_route = Return (new_RegExp "^#/a|b$") /\
  String_match "zzb" (new_RegExp "^#/a|b$")
  = Some {| elements := [Some "b"]; groups := None |} /\
  String_match "#/azz" (new_RegExp "^#/a|b$")
  = Some {| elements := [Some "#/a"]; groups := None |} /\
  String_match "#/a" (new_RegExp "^#/a|b$")
  = Some {| elements := [Some "#/a"]; groups := None |}.
Proof. repeat split. Qed.

(** ** The registry *)

(** Key equality is an equivalence. *)
Lemma same_key_refl : forall k, same_key k k = true.
Proof.
  intros [s|ref rx]; simpl; [apply String.eqb_refl|apply Nat.eqb_refl].
Qed.

Lemma same_key_sym : forall a b, same_key a b = same_key b a.
Proof.
  intros [s|i rx] [t|j ry]; simpl; try reflexivity;
    [apply String.eqb_sym|apply Nat.eqb_sym].
Qed.

Lemma same_key_congr :
  forall a b c, same_key a b = true -> same_key c a = same_key c b.
Proof.
  intros [s|i rx] [t|j ry] c H; simpl in H; try discriminate.
  - apply String.eqb_eq in H. subst t. reflexivity.
  - apply Nat.eqb_eq in H. subst j. destruct c; reflexivity.
Qed.

(** What [set] does to the keys: a key that is there keeps its place, a new
    key goes to the end. *)
Lemma keys_Map_set :
  forall k v m,
    keys (Map_set k v m)
    = if Map_has k m then keys m else (keys m ++ [k])%list.
Proof.
  intros k v m. induction m as [|[k' v'] rest IH]; [reflexivity|].
  unfold keys, Map_has in *. simpl.
  destruct (same_key k k') eqn:E; simpl; [reflexivity|].
  rewrite IH. destruct (existsb _ rest); reflexivity.
Qed.

Lemma Map_get_set :
  forall k d v m,
    Map_get k (Map_set d v m)
    = if same_key k d then Some v else Map_get k m.
Proof.
  intros k d v m. unfold Map_get.
  induction m as [|[k' v'] rest IH]; simpl.
  - destruct (same_key k d); reflexivity.
  - destruct (same_key d k') eqn:E; simpl.
    + rewrite <- (same_key_congr d k' k E).
      destruct (same_key k d); reflexivity.
    + destruct (same_key k k') eqn:E'; simpl.
      * destruct (same_key k d) eqn:E''; [|reflexivity].
        rewrite <- (same_key_congr k k' d E'), same_key_sym, E'' in E.
        discriminate.
      * exact IH.
Qed.

Lemma Map_get_delete :
  forall k d m,
    Map_get k (Map_delete d m)
    = if same_key k d then None else Map_get k m.
Proof.
  intros k d m. unfold Map_get, Map_delete.
  induction m as [|[k' v'] rest IH]; simpl.
  - destruct (same_key k d); reflexivity.
  - destruct (same_key d k') eqn:E; simpl.
    + rewrite IH. rewrite <- (same_key_congr d k' k E).
      destruct (same_key k d); reflexivity.
    + destruct (same_key k k') eqn:E'; [|exact IH]. simpl.
      destruct (same_key k d) eqn:E''; [|reflexivity].
      rewrite <- (same_key_congr k k' d E'), same_key_sym, E'' in E.
      discriminate.
Qed.

Lemma Map_get_on :
  forall k h ds m,
    Map_get k (fold_left (fun m i => Map_set i h m) ds m)
    = if existsb (fun d => same_key d k) ds then Some h else Map_get k m.
Proof.
  intros k h ds. induction ds as [|d ds IH]; intros m; [reflexivity|].
  cbn [fold_left existsb]. rewrite IH, Map_get_set, (same_key_sym d k).
  destruct (existsb _ ds), (same_key k d); reflexivity.
Qed.

Lemma Map_get_off :
  forall k ds m,
    Map_get k (fold_left (fun m i => Map_delete i m) ds m)
    = if existsb (fun d => same_key d k) ds then None else Map_get k m.
Proof.
  intros k ds. induction ds as [|d ds IH]; intros m; [reflexivity|].
  cbn [fold_left existsb]. rewrite IH, Map_get_delete, (same_key_sym d k).
  destruct (existsb _ ds), (same_key k d); reflexivity.
Qed.

(** [off] as one pass over the registry. *)
Lemma fold_Map_delete :
  forall ds m,
    fold_left (fun m i => Map_delete i m) ds m
    = filter (fun e => negb (existsb (fun d => same_key d (fst e)) ds)) m.
Proof.
  induction ds as [|d ds IH]; intros m; cbn [fold_left].
  - simpl. induction m as [|e m IHm]; [reflexivity|]. simpl. congruence.
  - rewrite IH. unfold Map_delete.
    induction m as [|e m IHm]; [reflexivity|]. simpl.
    destruct (same_key d (fst e)); simpl; [exact IHm|].
    destruct (existsb _ ds); simpl; [exact IHm|]. f_equal. exact IHm.
Qed.

Lemma with_handlers_same : forall r, with_handlers r (handlers r) = r.
Proof. intros []. reflexivity. Qed.

Lemma Map_has_get :
  forall k m, Map_has k m = match Map_get k m with Some _ => true | None => false end.
Proof.
  intros k m. unfold Map_has, Map_get.
  induction m as [|e m IH]; [reflexivity|]. simpl.
  destruct (same_key k (fst e)); [reflexivity|exact IH].
Qed.


Lemma Map_has_keys :
  forall k m, Map_has k m = existsb (same_key k) (keys m).
Proof.
  intros k m. unfold Map_has, keys.
  induction m as [|e m IH]; [reflexivity|]. simpl. rewrite IH. reflexivity.
Qed.

Lemma distinct_snoc :
  forall ks k,
    distinct ks = true -> existsb (same_key k) ks = false ->
    distinct (ks ++ [k]) = true.
Proof.
  induction ks as [|k' ks IH]; intros k Hd Hk; [reflexivity|].
  simpl in *. apply andb_prop in Hd. destruct Hd as (Hk' & Hd).
  apply orb_false_elim in Hk. destruct Hk as (Hkk' & Hk).
  rewrite forallb_app, Hk', (IH k Hd Hk). simpl.
  rewrite same_key_sym, Hkk'. reflexivity.
Qed.

Lemma distinct_Map_set :
  forall k v m,
    distinct (keys m) = true -> distinct (keys (Map_set k v m)) = true.
Proof.
  intros k v m H. rewrite keys_Map_set, Map_has_keys.
  destruct (existsb (same_key k) (keys m)) eqn:E; [exact H|].
  apply distinct_snoc; assumption.
Qed.

Lemma distinct_filter :
  forall f m,
    distinct (keys m) = true -> distinct (keys (filter f m)) = true.
Proof.
  intros f m. unfold keys. induction m as [|e m IH]; intros H; [reflexivity|].
  simpl in H. apply andb_prop in H. destruct H as (He & Hm).
  simpl. destruct (f e); [|exact (IH Hm)].
  simpl. rewrite (IH Hm), andb_true_r.
  rewrite forallb_forall in *. intros k Hk. apply He.
  apply in_map_iff in Hk. destruct Hk as (e' & <- & Hin).
  apply in_map. apply filter_In in Hin. tauto.
Qed.

Lemma distinct_on :
  forall route2 h r,
    distinct (keys (handlers r)) = true ->
    distinct (keys (handlers (on route2 h r))) = true.
Proof.
  intros route2 h r. unfold on. cbn [handlers with_handlers].
  generalize (handlers r). induction (routeArr route2) as [|d ds IH];
    intros m H; [exact H|].
  cbn [fold_left]. apply IH, distinct_Map_set, H.
Qed.

Lemma distinct_off :
  forall route2 r,
    distinct (keys (handlers r)) = true ->
    distinct (keys (handlers (off route2 r))) = true.
Proof.
  intros route2 r H. unfold off. cbn [handlers with_handlers].
  rewrite fold_Map_delete. apply distinct_filter, H.
Qed.

(** The key that a resolution selects is a key of the registry. *)
Lemma for_entries_key :
  forall m u entries k,
    route2 (for_entries m u entries) = Some k -> In k (keys entries).
Proof.
  intros m u entries k. induction entries as [|[k' v] rest IH]; simpl;
    [discriminate|].
  destruct k' as [s|ref rx].
  - destruct (String.eqb u s); [|auto]. simpl. intros H. left. congruence.
  - destruct (m u rx); [|auto]. simpl. intros H. left. congruence.
Qed.

(** X1.  After [on(route, handler)] the registry holds [handler] for every
    route of the argument, whether the route was registered before or not,
    and what it held for every other key. *)
Theorem on_registers :
  forall (r : Router) (route2 : RouteArg) (h : RouteHandler) (k : RouteDef),
    Map_get k (handlers (on route2 h r))
    = if named_by route2 k then Some h else Map_get k (handlers r).
Proof.
  intros r route2 h k. unfold on, named_by. cbn [handlers with_handlers].
  apply Map_get_on.
Qed.

(** X2.  The registry of a router never holds two entries with the same
    key: a new router has none, and no call of [on], [off], [fallback] or
    [afterEach] makes one. *)
Theorem registry_keys_distinct :
  forall (opts_startAt : option string) (made : list method_call),
    distinct (keys (handlers (perform (new_Router opts_startAt) made))) = true.
Proof.
  intros opts_startAt made.
  assert (H : forall r, distinct (keys (handlers r)) = true ->
                        distinct (keys (handlers (perform r made))) = true).
  { unfold perform. induction made as [|c made IH]; intros r Hr; [exact Hr|].
    cbn [fold_left]. apply IH. destruct c as [route2 h|route2|h|h].
    - apply distinct_on, Hr.
    - apply distinct_off, Hr.
    - exact Hr.
    - exact Hr. }
  apply H. reflexivity.
Qed.

Lemma keys_on :
  forall h ds m,
    keys (fold_left (fun m i => Map_set i h m) ds m)
    = (keys m ++ new_keys ds (keys m))%list.
Proof.
  intros h ds. induction ds as [|d ds IH]; intros m; cbn [fold_left new_keys].
  - symmetry. apply app_nil_r.
  - rewrite IH, keys_Map_set, Map_has_keys.
    destruct (existsb (same_key d) (keys m)); [reflexivity|].
    rewrite <- app_assoc. reflexivity.
Qed.

Lemma new_keys_new :
  forall ds ks k,
    In k (new_keys ds ks) -> In k ds /\ existsb (same_key k) ks = false.
Proof.
  induction ds as [|d ds IH]; intros ks k H; [contradiction|].
  cbn [new_keys] in H. destruct (existsb (same_key d) ks) eqn:E.
  - destruct (IH ks k H) as (Hin & Hk). split; [right; exact Hin|exact Hk].
  - destruct H as [<-|H]; [split; [left; reflexivity|exact E]|].
    destruct (IH _ k H) as (Hin & Hk). split; [right; exact Hin|].
    rewrite existsb_app in Hk. apply orb_false_elim in Hk. tauto.
Qed.

Lemma new_keys_all :
  forall ds ks d,
    In d ds -> existsb (same_key d) ks = false ->
    existsb (same_key d) (new_keys ds ks) = true.
Proof.
  induction ds as [|d0 ds IH]; intros ks d Hin Hd; [contradiction|].
  cbn [new_keys]. destruct (existsb (same_key d0) ks) eqn:E.
  - destruct Hin as [->|Hin]; [congruence|]. exact (IH ks d Hin Hd).
  - cbn [existsb]. destruct (same_key d d0) eqn:Edd0; [reflexivity|].
    destruct Hin as [->|Hin]; [rewrite same_key_refl in Edd0; discriminate|].
    apply (IH (ks ++ [d0])%list d Hin).
    rewrite existsb_app, Hd. simpl. rewrite Edd0. reflexivity.
Qed.

Lemma new_keys_distinct :
  forall ds ks, distinct (new_keys ds ks) = true.
Proof.
  induction ds as [|d ds IH]; intros ks; [reflexivity|].
  cbn [new_keys]. destruct (existsb (same_key d) ks); [apply IH|].
  cbn [distinct]. rewrite IH, andb_true_r.
  apply forallb_forall. intros k Hk. apply negb_true_iff.
  destruct (new_keys_new _ _ k Hk) as (_ & Hnew).
  rewrite existsb_app in Hnew. apply orb_false_elim in Hnew.
  destruct Hnew as (_ & Hnew). simpl in Hnew.
  rewrite orb_false_r in Hnew. rewrite same_key_sym. exact Hnew.
Qed.

(** X3.  [on] leaves the keys that are registered where they stand, also
    the ones whose handler it replaces, and puts the routes of its argument
    that are new behind them, in the order of the argument, each once: all
    of them, and nothing else.  So the order of the routes registered
    before, by which resolution goes, is not changed by registering
    again. *)
Theorem on_keeps_order :
  forall (r : Router) (route2 : RouteArg) (h : RouteHandler),
    let added := new_keys (routeArr route2) (keys (handlers r)) in
    keys (handlers (on route2 h r)) = (keys (handlers r) ++ added)%list /\
    (forall k, In k added ->
               In k (routeArr route2) /\ Map_has k (handlers r) = false) /\
    (forall d, In d (routeArr route2) -> Map_has d (handlers r) = false ->
               existsb (same_key d) added = true) /\
    distinct added = true /\
    (forall k, route2 = One k ->
               added = if Map_has k (handlers r) then [] else [k]).
Proof.
  intros r route2 h added. subst added. split; [|split; [|split; [|split]]].
  - unfold on. cbn [handlers with_handlers]. apply keys_on.
  - intros k Hk. rewrite Map_has_keys. exact (new_keys_new _ _ k Hk).
  - intros d Hd Hnew. rewrite Map_has_keys in Hnew.
    exact (new_keys_all _ _ d Hd Hnew).
  - apply new_keys_distinct.
  - intros k ->. cbn [routeArr new_keys]. rewrite Map_has_keys.
    destruct (existsb (same_key k) (keys (handlers r))); reflexivity.
Qed.

(** X4.  [off] takes out of the registry the entries of the routes of its
    argument and no other entry: the entries that stay keep their handlers
    and their order. *)
Theorem off_removes :
  forall (r : Router) (route2 : RouteArg),
    handlers (off route2 r)
    = filter (fun e => negb (named_by route2 (fst e))) (handlers r) /\
    forall k,
      Map_get k (handlers (off route2 r))
      = if named_by route2 k then None else Map_get k (handlers r).
Proof.
  intros r route2. unfold off, named_by. cbn [handlers with_handlers]. split.
  - apply fold_Map_delete.
  - intros k. apply Map_get_off.
Qed.

(** X5.  [off] with routes that are not registered raises nothing and
    changes nothing; a pattern object that is not the registered one counts
    as not registered, whatever its text. *)
Theorem off_absent_is_noop :
  forall (r : Router) (route2 : RouteArg),
    (forall d, In d (routeArr route2) -> Map_has d (handlers r) = false) ->
    off route2 r = r.
Proof.
  intros r route2 H. unfold off. rewrite fold_Map_delete.
  assert (Hall : forall e, In e (handlers r) ->
                   negb (existsb (fun d => same_key d (fst e)) (routeArr route2))
                   = true).
  { intros e He. apply negb_true_iff.
    destruct (existsb _ (routeArr route2)) eqn:E; [|reflexivity].
    apply existsb_exists in E. destruct E as (d & Hd & Hsame).
    pose proof (H d Hd) as Hnone. unfold Map_has in Hnone.
    assert (Hsome : existsb (fun e' => same_key d (fst e')) (handlers r) = true)
      by (apply existsb_exists; exists e; split; assumption).
    congruence. }
  assert (Hsame : filter (fun e => negb (existsb (fun d => same_key d (fst e))
                                                 (routeArr route2)))
                         (handlers r) = handlers r).
  { clear H. induction (handlers r) as [|e m IH]; [reflexivity|]. simpl.
    rewrite (Hall e (or_introl eq_refl)). f_equal.
    apply IH. intros e' He'. apply Hall. right. exact He'. }
  rewrite Hsame. apply with_handlers_same.
Qed.

(** [off] on the example router with [#/nowhere], and with a pattern object
    of its own that reads like the registered one. *)
Lemma off_absent_is_noop_witness :
  off (Many [RString "#/nowhere"; RRegExp 9 users_pattern]) demo_router
  = demo_router.
Proof.
  apply off_absent_is_noop.
  intros d [<-|[<-|[]]]; reflexivity.
Defined.

(** X6.  [off] undoes the [on] of a route that was not registered: the
    registry, and the router, are as they were. *)
Theorem off_undoes_on :
  forall (r : Router) (k : RouteDef) (h : RouteHandler),
    Map_has k (handlers r) = false ->
    off (One k) (on (One k) h r) = r.
Proof.
  intros r k h H. unfold off, on. cbn [routeArr fold_left handlers with_handlers].
  assert (Hm : Map_delete k (Map_set k h (handlers r)) = handlers r).
  { unfold Map_has in H. unfold Map_delete.
    induction (handlers r) as [|[k' v'] m IH]; simpl in *.
    - rewrite same_key_refl. reflexivity.
    - apply orb_false_elim in H. destruct H as (Hk & Hm).
      rewrite Hk. simpl. rewrite Hk. simpl. f_equal. exact (IH Hm). }
  rewrite Hm. destruct r. reflexivity.
Qed.

Lemma off_undoes_on_witness :
  off (One (RString "#/about")) (on (One (RString "#/about")) 7 demo_router)
  = demo_router.
Proof. apply off_undoes_on. reflexivity. Defined.

(** X7.  A route that [off] has removed is not the route of any later
    resolution. *)
Theorem removed_route_not_resolved :
  forall str_match (r : Router) (route2 : RouteArg) (u : string) (k : RouteDef),
    route_ (resolve str_match (off route2 r) u) = Some k ->
    named_by route2 k = false.
Proof.
  intros str_match r route2 u k H. unfold resolve in H. cbn [route_] in H.
  apply for_entries_key in H. unfold keys in H.
  apply in_map_iff in H. destruct H as (e & <- & He).
  unfold off in He. cbn [handlers with_handlers] in He.
  rewrite fold_Map_delete in He. apply filter_In in He.
  destruct He as (_ & He). apply negb_true_iff in He. exact He.
Qed.

(** On the example router without its first route, [#/users/7] resolves to
    the pattern of the users, which was not removed. *)
Lemma removed_route_not_resolved_witness :
  route_ (resolve String_match (off (One (RString "#/home")) demo_router)
                  "#/users/7")
  = Some (RRegExp 1 users_pattern) /\
  named_by (One (RString "#/home")) (RRegExp 1 users_pattern) = false.
Proof.
  split; [reflexivity|].
  exact (removed_route_not_resolved String_match demo_router
           (One (RString "#/home")) "#/users/7" (RRegExp 1 users_pattern)
           eq_refl).
Defined.

(** What the loop leaves when it selects a string key. *)
Lemma for_entries_string :
  forall m u entries s,
    route2 (for_entries m u entries) = Some (RString s) ->
    s = u /\ params_ (for_entries m u entries) = None.
Proof.
  intros m u entries s. induction entries as [|[k v] rest IH]; simpl;
    [discriminate|].
  destruct k as [t|ref rx].
  - destruct (String.eqb u t) eqn:E; [|exact IH]. simpl.
    intros H. injection H as <-. apply String.eqb_eq in E. auto.
  - destruct (m u rx); [discriminate|exact IH].
Qed.

(** X8.  A string route is the route of a resolution only for the fragment
    that is equal to it, character for character, and the params of that
    resolution are empty. *)
Theorem string_route_exact :
  forall str_match (r : Router) (u s : string),
    route_ (resolve str_match r u) = Some (RString s) ->
    s = u /\ params (resolve str_match r u) = [].
Proof.
  intros str_match r u s H. unfold resolve in *. cbn [route_ params] in *.
  destruct (for_entries_string str_match u (handlers r) s H) as (Hs & Hp).
  rewrite Hp. auto.
Qed.

Lemma string_route_exact_witness :
  route_ (resolve String_match demo_router "#/home") = Some (RString "#/home") /\
  params (resolve String_match demo_router "#/home") = [].
Proof.
  split; [reflexivity|].
  exact (proj2 (string_route_exact String_match demo_router "#/home" "#/home"
                  eq_refl)).
Defined.

(** The loop over a registry to which a string route was added, for the
    fragment of that route. *)
Lemma for_entries_Map_set_string :
  forall m f h entries,
    (forall e, In e entries -> same_key (RString f) (fst e) = false ->
               matches m f (fst e) = false) ->
    for_entries m f (Map_set (RString f) h entries)
    = {| route2 := Some (RString f); handler := Some h; params_ := None |}.
Proof.
  intros m f h entries. induction entries as [|[k v] rest IH]; intros H.
  - simpl. rewrite String.eqb_refl. reflexivity.
  - cbn [Map_set]. destruct (same_key (RString f) k) eqn:E.
    + destruct k as [t|ref rx]; [|discriminate]. simpl in E.
      apply String.eqb_eq in E. subst t.
      simpl. rewrite String.eqb_refl. reflexivity.
    + pose proof (H (k, v) (or_introl eq_refl) E) as Hk. simpl in Hk.
      change ((k, v) :: Map_set (RString f) h rest)
        with ([(k, v)] ++ Map_set (RString f) h rest)%list.
      rewrite (for_entries_skip m f [(k, v)]).
      * apply IH. intros e He. apply H. right. exact He.
      * constructor; [exact Hk|constructor].
Qed.

(** X9.  After [on(f, h)] with a string [f], the resolution of the fragment
    [f] calls [h] first, with the route [f] and empty params, provided no
    other registered route matches [f]. *)
Theorem on_string_then_resolve :
  forall str_match throws (r : Router) (f : string) (h : RouteHandler),
    (forall e, In e (handlers r) -> same_key (RString f) (fst e) = false ->
               matches str_match f (fst e) = false) ->
    resolve str_match (on (One (RString f)) h r) f
    = mkResolved f [] (Some (RString f)) /\
    hd_error (calls (exec str_match throws (on (One (RString f)) h r) f))
    = Some (mkCall OfRoute h (mkResolved f [] (Some (RString f)))).
Proof.
  intros str_match throws r f h H.
  assert (Hres : resolve str_match (on (One (RString f)) h r) f
                 = mkResolved f [] (Some (RString f))).
  { unfold resolve, on. cbn [routeArr fold_left handlers with_handlers].
    rewrite (for_entries_Map_set_string str_match f h (handlers r) H).
    reflexivity. }
  split; [exact Hres|].
  unfold exec. cbv zeta. rewrite Hres. unfold call_handler, on.
  cbn [routeArr fold_left handlers with_handlers].
  rewrite (for_entries_Map_set_string str_match f h (handlers r) H).
  cbn [handler app]. apply make_calls_first.
Qed.

(** On the example router, whose pattern does not match [#/about]. *)
Lemma on_string_then_resolve_witness :
  hd_error (calls (exec String_match no_throw
                        (on (One (RString "#/about")) 7 demo_router) "#/about"))
  = Some (mkCall OfRoute 7 (mkResolved "#/about" [] (Some (RString "#/about")))).
Proof.
  apply (on_string_then_resolve String_match no_throw demo_router "#/about" 7).
  intros e [<-|[<-|[]]] _; reflexivity.
Defined.

(** The loop looks at the keys only until it has found its entry. *)
Lemma for_entries_keys :
  forall m u m1 m2,
    keys m1 = keys m2 ->
    route2 (for_entries m u m1) = route2 (for_entries m u m2) /\
    params_ (for_entries m u m1) = params_ (for_entries m u m2).
Proof.
  intros m u m1. induction m1 as [|[k v] m1 IH]; intros [|[k' v'] m2] H;
    try discriminate; [split; reflexivity|].
  unfold keys in *. simpl in H. injection H as <- H. simpl.
  destruct k as [s|ref rx].
  - destruct (String.eqb u s); [split; reflexivity|exact (IH m2 H)].
  - destruct (m u rx); [split; reflexivity|exact (IH m2 H)].
Qed.

(** X10.  Registering a handler for a route that is registered already
    changes no routing: every fragment resolves to the same route, with the
    same params, as before; only the handler of that route is another. *)
Theorem on_again_keeps_routing :
  forall str_match (r : Router) (k : RouteDef) (h : RouteHandler),
    Map_has k (handlers r) = true ->
    (forall u, resolve str_match (on (One k) h r) u = resolve str_match r u) /\
    Map_get k (handlers (on (One k) h r)) = Some h.
Proof.
  intros str_match r k h H. split.
  - intros u. unfold resolve, on. cbn [routeArr fold_left handlers with_handlers].
    destruct (for_entries_keys str_match u (Map_set k h (handlers r)) (handlers r))
      as (Hroute & Hparams).
    + rewrite keys_Map_set, H. reflexivity.
    + rewrite Hroute, Hparams. reflexivity.
  - unfold on. cbn [routeArr fold_left handlers with_handlers].
    rewrite Map_get_set, same_key_refl. reflexivity.
Qed.

(** The example router with another handler for [#/home]. *)
Lemma on_again_keeps_routing_witness :
  resolve String_match (on (One (RString "#/home")) 8 demo_router) "#/users/7"
  = resolve String_match demo_router "#/users/7" /\
  Map_get (RString "#/home") (handlers (on (One (RString "#/home")) 8 demo_router))
  = Some 8.
Proof.
  destruct (on_again_keeps_routing String_match demo_router (RString "#/home") 8
              eq_refl) as (Hsame & Hget).
  split; [exact (Hsame "#/users/7")|exact Hget].
Defined.

(** X11.  The router has one fallback slot and one post-navigation slot:
    after any calls of its registration methods each slot holds the handler
    of the last call of its own method, or what it held before when there
    was none; [on] and [off] do not touch the slots. *)
Theorem slots_hold_last_handler :
  forall (r : Router) (made : list method_call),
    fallbackHandler (perform r made)
    = match rev (fallback_calls made) with
      | h :: _ => Some h
      | [] => fallbackHandler r
      end /\
    afterEachHandler (perform r made)
    = match rev (afterEach_calls made) with
      | h :: _ => Some h
      | [] => afterEachHandler r
      end.
Proof.
  intros r made. induction made as [|c made (IHf & IHa)] using rev_ind;
    [split; reflexivity|].
  unfold perform, fallback_calls, afterEach_calls in *.
  rewrite fold_left_app, !flat_map_app, !rev_app_distr. cbn [fold_left flat_map].
  destruct c as [route2 h|route2|h|h]; cbn [app rev];
    cbn [on off fallback afterEach with_handlers fallbackHandler afterEachHandler];
    split; assumption || reflexivity.
Qed.

(** X24.  [on] and [off] with an array of routes do what the calls with
    the single routes, one after the other in the order of the array, do;
    with an empty array they change nothing. *)
Theorem array_argument_is_iteration :
  forall (r : Router) (ds : list RouteDef) (h : RouteHandler),
    on (Many ds) h r = fold_left (fun r' d => on (One d) h r') ds r /\
    off (Many ds) r = fold_left (fun r' d => off (One d) r') ds r.
Proof.
  intros r ds h. revert r. induction ds as [|d ds IH]; intros r.
  - unfold on, off. cbn [routeArr fold_left].
    rewrite with_handlers_same. split; reflexivity.
  - destruct (IH (on (One d) h r)) as (IHon & _).
    destruct (IH (off (One d) r)) as (_ & IHoff).
    cbn [fold_left]. rewrite <- IHon, <- IHoff.
    unfold on, off. destruct r. split; reflexivity.
Qed.

(** ** Escaping *)

Lemma escapeRegex_length :
  forall s,
    String.length (escapeRegex s)
    = String.length s + length (filter is_special (chars s)).
Proof.
  induction s as [|c s IH]; [reflexivity|].
  cbn [escapeRegex]. unfold chars in *. cbn [list_ascii_of_string filter].
  destruct (is_special c); simpl; rewrite IH; lia.
Qed.

Lemma escapeRegex_plain :
  forall s, existsb is_special (chars s) = false -> escapeRegex s = s.
Proof.
  induction s as [|c s IH]; intros H; [reflexivity|].
  unfold chars in *. simpl in H. apply orb_false_elim in H.
  destruct H as (Hc & Hs). cbn [escapeRegex]. rewrite Hc, (IH Hs). reflexivity.
Qed.

Lemma filter_nil_existsb :
  forall (A : Type) (f : A -> bool) l, filter f l = [] -> existsb f l = false.
Proof.
  intros A f l. induction l as [|x l IH]; [reflexivity|]. simpl.
  destruct (f x); [discriminate|exact IH].
Qed.

Lemma escapeRegex_special :
  forall s,
    existsb is_special (chars (escapeRegex s)) = existsb is_special (chars s).
Proof.
  induction s as [|c s IH]; [reflexivity|].
  cbn [escapeRegex]. unfold chars in *.
  destruct (is_special c) eqn:E; simpl; rewrite E; [reflexivity|exact IH].
Qed.

Lemma escapeRegex_app :
  forall a b, escapeRegex (a ++ b) = escapeRegex a ++ escapeRegex b.
Proof.
  induction a as [|c a IH]; intros b; [reflexivity|].
  simpl. rewrite IH. destruct (is_special c); reflexivity.
Qed.

(** X12.  [escapeRegex] returns its argument as it is exactly when the
    argument has none of the characters [.*+?^${}()|[]\]; otherwise the
    result is longer by one backslash for each of them, and escaping it
    once more changes it again. *)
Theorem escapeRegex_fixed_point :
  forall s,
    String.length (escapeRegex s)
    = String.length s + length (filter is_special (chars s)) /\
    (escapeRegex s = s <-> existsb is_special (chars s) = false) /\
    (escapeRegex (escapeRegex s) = escapeRegex s <-> escapeRegex s = s).
Proof.
  intros s.
  assert (Hfix : forall t, escapeRegex t = t <-> existsb is_special (chars t) = false).
  { intros t. split; [|apply escapeRegex_plain].
    intros H. apply filter_nil_existsb.
    pose proof (escapeRegex_length t) as Hlen. rewrite H in Hlen.
    destruct (filter is_special (chars t)); [reflexivity|simpl in Hlen; lia]. }
  split; [apply escapeRegex_length|]. split; [apply Hfix|].
  rewrite (Hfix (escapeRegex s)), escapeRegex_special. symmetry. apply Hfix.
Qed.

(** ** Escaped text as a pattern of its own *)

Lemma group_list_literal :
  forall l, group_list (sequence (map Char l)) = [].
Proof.
  induction l as [|c [|d l] IH]; try reflexivity.
  change (sequence (map Char (c :: d :: l)))
    with (Seq (Char c) (sequence (map Char (d :: l)))).
  cbn [group_list]. rewrite IH. reflexivity.
Qed.

(** The search succeeds when the pattern matches somewhere further on. *)
Lemma search_finds :
  forall r skipped pos rest,
    run r {| m_pos := length skipped + pos; m_rest := rest; m_caps := [] |} Some
    <> None ->
    search r pos (skipped ++ rest) <> None.
Proof.
  intros r skipped. induction skipped as [|c skipped IH]; intros pos rest H.
  - simpl in *. destruct rest; simpl; destruct (run r _ Some); congruence.
  - simpl.
    destruct (run r {| m_pos := pos; m_rest := c :: skipped ++ rest;
                       m_caps := [] |} Some); [discriminate|].
    apply IH. rewrite Nat.add_succ_r. exact H.
Qed.

(** What the search for an escaped text finds. *)
Lemma escaped_match_inv :
  forall s u m,
    String_match u (new_RegExp (escapeRegex s)) = Some m ->
    substring s u /\ m = {| elements := [Some s]; groups := None |}.
Proof.
  intros s u m H. unfold String_match in H.
  cbn [re_pattern re_global re_flags new_RegExp] in H.
  rewrite parse_escaped in H. unfold RegExpBuiltinExec, literal in H.
  destruct (search _ 0 (chars u)) as [f|] eqn:Hf; [|discriminate].
  destruct (search_within u _ (chars u) 0 [] eq_refl eq_refl f Hf)
    as (_ & (skipped & Hu & Hlen) & _ & Hrun).
  rewrite <- (app_nil_r (map Char (chars s))) in Hrun.
  destruct (run_literal_only _ _ _ _ _ Hrun) as (rest & Hrest).
  simpl in Hrest. rewrite Hrest, run_literal in Hrun. simpl in Hrun.
  injection Hrun as Hend. split.
  - exists skipped, rest. rewrite Hu, Hrest. reflexivity.
  - injection H as <-. unfold groups_object.
    rewrite group_list_literal. cbn [map named]. do 3 f_equal.
    unfold matched_text. rewrite <- Hend, Hrest. simpl.
    rewrite Nat.add_sub, firstn_app, firstn_all, Nat.sub_diag.
    simpl. rewrite app_nil_r. apply text_chars.
Qed.

Lemma escaped_match :
  forall s u,
    substring s u ->
    String_match u (new_RegExp (escapeRegex s))
    = Some {| elements := [Some s]; groups := None |}.
Proof.
  intros s u (before & after & Hu).
  destruct (String_match u (new_RegExp (escapeRegex s))) as [m|] eqn:E.
  - destruct (escaped_match_inv s u m E) as (_ & ->). reflexivity.
  - exfalso. unfold String_match in E.
    cbn [re_pattern re_global re_flags new_RegExp] in E.
    rewrite parse_escaped in E. unfold RegExpBuiltinExec, literal in E.
    rewrite Hu in E.
    assert (Hs : search (sequence (map Char (chars s))) 0
                        (before ++ chars s ++ after) <> None).
    { apply search_finds.
      rewrite <- (app_nil_r (map Char (chars s))), run_literal. discriminate. }
    destruct (search (sequence (map Char (chars s))) 0
                     (before ++ chars s ++ after));
      [discriminate|contradiction].
Qed.

(** X13.  The escaped form of a text, used as a pattern, matches in the
    subjects that contain the text and in no other, and what it matches is
    the text itself; it has no group. *)
Theorem escapeRegex_matches_itself :
  forall s u,
    (String_match u (new_RegExp (escapeRegex s)) <> None <-> substring s u) /\
    (forall m,
        String_match u (new_RegExp (escapeRegex s)) = Some m ->
        elements m = [Some s] /\ groups m = None).
Proof.
  intros s u. split; [split|].
  - intros H.
    destruct (String_match u (new_RegExp (escapeRegex s))) as [m|] eqn:E;
      [|congruence].
    exact (proj1 (escaped_match_inv s u m E)).
  - intros H. rewrite (escaped_match s u H). discriminate.
  - intros m H. destruct (escaped_match_inv s u m H) as (_ & ->).
    split; reflexivity.
Qed.

(** X25.  A pattern key is searched for in the fragment, it is not matched
    against the whole of it: a router whose one route is the pattern of an
    escaped text, without anchors, selects that route for every fragment in
    which the text occurs, and for no other, and the params are empty. *)
Theorem pattern_key_is_searched :
  forall (opts_startAt : option string) (ref : nat) (s : string)
         (h : RouteHandler) (u : string),
    let k := RRegExp ref (new_RegExp (escapeRegex s)) in
    let r := on (One k) h (new_Router opts_startAt) in
    (route_ (resolve String_match r u) = Some k <-> substring s u) /\
    (route_ (resolve String_match r u) = Some k ->
     resolve String_match r u = mkResolved u [] (Some k)).
Proof.
  intros opts_startAt ref s h u k r. subst k r.
  unfold resolve, on.
  cbn [routeArr fold_left handlers with_handlers new_Router Map_set for_entries].
  destruct (String_match u (new_RegExp (escapeRegex s))) as [m|] eqn:E.
  - destruct (escaped_match_inv s u m E) as (Hsub & ->).
    cbn [route_ route2 params_ params groups spread].
    repeat split; auto.
  - cbn [route_ route2]. split; [split|]; try discriminate.
    intros Hsub. rewrite (escaped_match s u Hsub) in E. discriminate.
Qed.

(** ** What [route] returns and raises *)

Lemma alternate_firstn :
  forall segments values,
    alternate segments (firstn (length segments) values)
    = alternate segments values.
Proof.
  induction segments as [|seg segments IH]; intros values; [reflexivity|].
  destruct values as [|v values]; [reflexivity|].
  cbn [length firstn alternate]. rewrite IH. reflexivity.
Qed.

(** X14.  [route] raises a [TypeError] when, and only when, it is given no
    segment at all.  When the first segment does not begin with [#/] it
    raises its own error, whose message ends with the assembled text,
    whatever the values are.  When the first segment begins with [#/] and
    the values are strings or placeholders made by [param], the names being
    identifiers and no two the same, it returns a pattern, and that pattern
    is well formed. *)
Theorem route_outcomes :
  forall segments values,
    (route segments values = Throw TypeError <-> segments = []) /\
    forall first rest,
      segments = first :: rest ->
      (startsWith first "#/" = false ->
       route segments values
       = Throw (Error ("Routes must start with " ++ dquote ++ "#/" ++ dquote
                         ++ "; route is " ++ join (alternate segments values)))) /\
      (startsWith first "#/" = true ->
       forall simple_values,
         values = map to_value simple_values ->
         Forall (fun n => identifier n = true)
                (hole_names (tokens segments simple_values)) ->
         NoDup (hole_names (tokens segments simple_values)) ->
         exists ast,
           route segments values
           = Return (new_RegExp ("^" ++ join (alternate segments values) ++ "$")) /\
           parse ("^" ++ join (alternate segments values) ++ "$") = Some ast).
Proof.
  intros segments values. rewrite route_cases. split.
  - destruct segments as [|first rest]; [tauto|].
    destruct (startsWith first "#/"); split; discriminate.
  - intros first rest ->. split.
    + intros Hfirst. rewrite Hfirst. reflexivity.
    + intros Hfirst simple_values -> Hid Hnodup. rewrite Hfirst.
      exists (anchored (token_nodes 1 (tokens (first :: rest) simple_values))).
      split; [reflexivity|].
      rewrite (alternate_tokens _ _ Hid).
      exact (parse_anchored_tokens _ Hid Hnodup).
Qed.

(** X15.  [route] reads one value behind each segment and no more: the
    values past the last segment do not change what it returns or
    raises. *)
Theorem route_ignores_surplus_values :
  forall segments values,
    route segments values = route segments (firstn (length segments) values).
Proof.
  intros segments values. rewrite !route_cases, alternate_firstn. reflexivity.
Qed.

(** The escaped pieces of a route of strings are the escaped form of its
    whole text. *)
Lemma join_alternate_strings :
  forall segments strs,
    join (alternate segments (map VString strs))
    = escapeRegex (raw_text (tokens segments (map SString strs))).
Proof.
  induction segments as [|seg segments IH]; intros strs; [reflexivity|].
  destruct strs as [|s strs]; cbn [map alternate tokens token_of raw_text piece].
  - rewrite join_cons, escapeRegex_app. f_equal. exact (IH []).
  - rewrite !join_cons, !escapeRegex_app. f_equal. f_equal. apply IH.
Qed.

(** X16.  With strings for values, [route] compiles the text of the
    template with the strings put in, escaped as a whole, between [^] and
    [$], and the pattern matches that text and no other fragment. *)
Theorem route_of_strings :
  forall segments strs rx,
    route segments (map VString strs) = Return rx ->
    let whole := raw_text (tokens segments (map SString strs)) in
    rx = new_RegExp ("^" ++ escapeRegex whole ++ "$") /\
    forall u, String_match u rx <> None <-> u = whole.
Proof.
  intros segments strs rx H whole.
  rewrite route_cases, join_alternate_strings in H. fold whole in H.
  assert (Hrx : rx = new_RegExp ("^" ++ escapeRegex whole ++ "$")).
  { destruct segments as [|first rest]; [discriminate|].
    destruct (startsWith first "#/"); [|discriminate].
    injection H as <-. reflexivity. }
  split; [exact Hrx|]. subst rx. intros u.
  unfold String_match. cbn [re_pattern re_global re_flags new_RegExp].
  pose proof (parse_anchored_tokens [Lit whole]) as Hparse.
  cbn [map token_text hole_names token_nodes] in Hparse.
  rewrite join_cons, app_nil_r in Hparse.
  change (join []) with "" in Hparse. rewrite append_empty in Hparse.
  rewrite Hparse by constructor. unfold RegExpBuiltinExec.
  rewrite <- (search_anchored_literal whole u).
  destruct (search _ 0 (chars u)); split; congruence.
Qed.

(** [route`#/foo/${"*"}/bar`]. *)
Lemma route_of_strings_witness :
  route ["#/foo/"; "/bar"] (map VString ["*"])
  = Return (new_RegExp "^#/foo/\*/bar$") /\
  String_match "#/foo/*/bar" (new_RegExp "^#/foo/\*/bar$") <> None.
Proof.
  split; [reflexivity|].
  apply (proj2 (route_of_strings ["#/foo/"; "/bar"] ["*"]
                  (new_RegExp "^#/foo/\*/bar$") eq_refl)).
  reflexivity.
Defined.

(** ** The groups of a compiled route *)

Lemma group_list_sequence :
  forall ts, group_list (sequence ts) = flat_map group_list ts.
Proof.
  induction ts as [|t [|t' ts] IH]; try reflexivity.
  - simpl. symmetry. apply app_nil_r.
  - change (sequence (t :: t' :: ts)) with (Seq t (sequence (t' :: ts))).
    cbn [group_list]. rewrite IH. reflexivity.
Qed.

Lemma flat_map_literal :
  forall s, flat_map group_list (literal s) = [].
Proof.
  intros s. unfold literal. induction (chars s) as [|c l IH]; [reflexivity|].
  exact IH.
Qed.

Lemma named_token_nodes :
  forall ts i,
    map fst (named (flat_map group_list (token_nodes i ts))) = hole_names ts.
Proof.
  induction ts as [|[s|name] ts IH]; intros i; cbn [token_nodes hole_names].
  - reflexivity.
  - rewrite flat_map_app, flat_map_literal. apply IH.
  - cbn [flat_map hole group_list word_plus app named map fst].
    f_equal. apply IH.
Qed.

Lemma group_names_anchored_tokens :
  forall ts, group_names (anchored (token_nodes 1 ts)) = hole_names ts.
Proof.
  intros ts. unfold group_names, anchored.
  rewrite group_list_sequence. cbn [flat_map group_list app].
  rewrite flat_map_app. cbn [flat_map group_list app].
  rewrite app_nil_r. apply named_token_nodes.
Qed.

(** X17.  With strings and placeholders made by [param] for values, the
    names being identifiers and no two the same, the pattern that [route]
    returns matches a fragment only as a whole, and the groups of a match
    bear the names of the placeholders, in their order. *)
Theorem route_of_placeholders :
  forall segments simple_values rx,
    route segments (map to_value simple_values) = Return rx ->
    Forall (fun n => identifier n = true)
           (hole_names (tokens segments simple_values)) ->
    NoDup (hole_names (tokens segments simple_values)) ->
    forall u m,
      String_match u rx = Some m ->
      hd_error (elements m) = Some (Some u) /\
      map fst (spread (groups m)) = hole_names (tokens segments simple_values).
Proof.
  intros segments simple_values rx H Hid Hnodup u m Hm.
  rewrite route_cases, (alternate_tokens _ _ Hid) in H.
  assert (Hrx : rx = new_RegExp ("^" ++ join (map token_text
                                     (tokens segments simple_values)) ++ "$")).
  { destruct segments as [|first rest]; [discriminate|].
    destruct (startsWith first "#/"); [|discriminate].
    injection H as <-. reflexivity. }
  clear H. subst rx.
  pose proof (parse_anchored_tokens _ Hid Hnodup) as Hparse.
  split.
  - exact (anchored_full_match (new_RegExp _) _ eq_refl Hparse u m Hm).
  - unfold String_match in Hm. cbn [re_pattern re_global re_flags new_RegExp] in Hm.
    rewrite Hparse in Hm. unfold RegExpBuiltinExec in Hm.
    destruct (search _ 0 (chars u)) as [f|]; [|discriminate].
    injection Hm as <-. cbn [groups].
    rewrite groups_object_keys. apply group_names_anchored_tokens.
Qed.

(** [route`#/users/${param("id")}`] and the fragment [#/users/7]. *)
Lemma route_of_placeholders_witness :
  route ["#/users/"; ""] (map to_value [SParam "id"]) = Return users_pattern /\
  String_match "#/users/7" users_pattern
  = Some {| elements := [Some "#/users/7"; Some "7"];
            groups := Some [("id", Some "7")] |} /\
  map fst (spread (Some [("id", Some "7")])) = ["id"].
Proof.
  split; [reflexivity|]. split; [reflexivity|].
  refine (proj2 (route_of_placeholders ["#/users/"; ""] [SParam "id"]
                   users_pattern eq_refl _ _ "#/users/7"
                   {| elements := [Some "#/users/7"; Some "7"];
                      groups := Some [("id", Some "7")] |} eq_refl)).
  - repeat constructor.
  - repeat constructor. intros [].
Defined.

(** ** A placeholder in a route *)

Lemma drop_captures_none : forall caps, drop_captures [] caps = caps.
Proof.
  intros caps. unfold drop_captures. induction caps as [|p caps IH];
    [reflexivity|]. simpl. f_equal. exact IH.
Qed.

(** A greedy repetition of one character of a set is the search for the
    longest run that the rest of the pattern accepts. *)
Lemma repeat_matcher_greedy :
  forall ok fuel min pos rest caps c,
    length rest < fuel ->
    repeat_matcher (one_char ok) [] true fuel min None
                   {| m_pos := pos; m_rest := rest; m_caps := caps |} c
    = greedy_run ok min pos rest caps c.
Proof.
  intros ok fuel. induction fuel as [|fuel IH]; intros min pos rest caps c Hlen;
    [lia|].
  cbn [repeat_matcher is_zero option_map m_pos m_rest m_caps].
  rewrite drop_captures_none.
  destruct rest as [|d rest]; cbn [greedy_run].
  - change (one_char ok {| m_pos := pos; m_rest := []; m_caps := caps |})
      with (fun _ : cont => @None mstate).
    destruct (Nat.eqb min 0); reflexivity.
  - change (one_char ok {| m_pos := pos; m_rest := d :: rest; m_caps := caps |})
      with (fun k : cont =>
              if ok d
              then k {| m_pos := S pos; m_rest := rest; m_caps := caps |}
              else None).
    cbv beta. cbn [m_pos].
    replace (Nat.eqb (S pos) pos) with false
      by (symmetry; apply Nat.eqb_neq; lia).
    rewrite andb_false_r. simpl in Hlen.
    rewrite (IH (Nat.pred min) (S pos) rest caps c) by lia.
    destruct (Nat.eqb min 0), (ok d); simpl;
      try reflexivity; destruct (greedy_run ok _ _ rest caps c); reflexivity.
Qed.

Lemma greedy_run_none :
  forall ok rest min pos caps c,
    (forall p q,
        rest = (p ++ q)%list -> forallb ok p = true -> min <= length p ->
        c {| m_pos := length p + pos; m_rest := q; m_caps := caps |} = None) ->
    greedy_run ok min pos rest caps c = None.
Proof.
  intros ok rest. induction rest as [|d rest IH]; intros min pos caps c H.
  - cbn [greedy_run]. destruct (Nat.eqb min 0) eqn:E; [|reflexivity].
    apply Nat.eqb_eq in E. apply (H [] []); [reflexivity|reflexivity|simpl; lia].
  - assert (Hhere : (if Nat.eqb min 0
                     then c {| m_pos := pos; m_rest := d :: rest; m_caps := caps |}
                     else None) = None).
    { destruct (Nat.eqb min 0) eqn:E; [|reflexivity].
      apply Nat.eqb_eq in E.
      apply (H [] (d :: rest)); [reflexivity|reflexivity|simpl; lia]. }
    cbn [greedy_run]. rewrite Hhere.
    destruct (ok d) eqn:Ed; [|reflexivity].
    rewrite (IH (Nat.pred min) (S pos) caps c); [reflexivity|].
    intros p q Hrest Hp Hmin. rewrite Nat.add_succ_r.
    apply (H (d :: p) q).
    + rewrite Hrest. reflexivity.
    + simpl. rewrite Ed. exact Hp.
    + simpl. lia.
Qed.

Lemma greedy_run_hit :
  forall ok w min pos rest caps c z,
    forallb ok w = true -> min <= length w ->
    c {| m_pos := length w + pos; m_rest := rest; m_caps := caps |} = Some z ->
    (forall p q,
        p <> [] -> rest = (p ++ q)%list -> forallb ok p = true ->
        c {| m_pos := length p + (length w + pos); m_rest := q; m_caps := caps |}
        = None) ->
    greedy_run ok min pos (w ++ rest) caps c = Some z.
Proof.
  intros ok w. induction w as [|a w IH]; intros min pos rest caps c z Hw Hmin Hz Hmiss.
  - simpl in *. assert (min = 0) by lia. subst min.
    destruct rest as [|d rest]; cbn [greedy_run Nat.eqb]; [exact Hz|].
    rewrite Hz. destruct (ok d) eqn:Ed; [|reflexivity].
    rewrite greedy_run_none; [reflexivity|].
    intros p q Hrest Hp _. rewrite Nat.add_succ_r.
    apply (Hmiss (d :: p) q).
    + discriminate.
    + rewrite Hrest. reflexivity.
    + simpl. rewrite Ed. exact Hp.
  - simpl in Hw. apply andb_prop in Hw. destruct Hw as (Ha & Hw).
    change ((a :: w) ++ rest)%list with (a :: (w ++ rest))%list.
    cbn [greedy_run]. rewrite Ha.
    rewrite (IH (Nat.pred min) (S pos) rest caps c z); [reflexivity|exact Hw| | |].
    + simpl in Hmin. lia.
    + rewrite Nat.add_succ_r. exact Hz.
    + intros p q Hp Hrest Hok. rewrite Nat.add_succ_r. apply Hmiss; assumption.
Qed.

Lemma greedy_run_inv :
  forall ok rest min pos caps c z,
    greedy_run ok min pos rest caps c = Some z ->
    exists p q,
      rest = (p ++ q)%list /\ forallb ok p = true /\ min <= length p /\
      c {| m_pos := length p + pos; m_rest := q; m_caps := caps |} = Some z.
Proof.
  intros ok rest. induction rest as [|d rest IH]; intros min pos caps c z H.
  - cbn [greedy_run] in H. destruct (Nat.eqb min 0) eqn:E; [|discriminate].
    apply Nat.eqb_eq in E. exists [], []. repeat split; [simpl; lia|exact H].
  - assert (Hhere : (if Nat.eqb min 0
                     then c {| m_pos := pos; m_rest := d :: rest; m_caps := caps |}
                     else None) = Some z ->
                    exists p q,
                      d :: rest = (p ++ q)%list /\ forallb ok p = true /\
                      min <= length p /\
                      c {| m_pos := length p + pos; m_rest := q; m_caps := caps |}
                      = Some z).
    { intros Hc. destruct (Nat.eqb min 0) eqn:E; [|discriminate].
      apply Nat.eqb_eq in E. exists [], (d :: rest).
      repeat split; [simpl; lia|exact Hc]. }
    cbn [greedy_run] in H. destruct (ok d) eqn:Ed; [|exact (Hhere H)].
    destruct (greedy_run ok (Nat.pred min) (S pos) rest caps c) as [z'|] eqn:E;
      [|exact (Hhere H)].
    injection H as <-.
    destruct (IH _ _ _ _ _ E) as (p & q & Hrest & Hp & Hmin & Hc).
    exists (d :: p), q. rewrite Hrest. simpl. rewrite Ed, Hp.
    repeat split; [lia|]. rewrite Nat.add_succ_r in Hc. exact Hc.
Qed.

(** The set of [\w] as the matcher tests it. *)
Lemma word_set :
  forall d,
    xorb false (existsb (item_matches d) [ItemSet false SetWord]) = is_word d.
Proof. intros d. simpl. destruct (is_word d); reflexivity. Qed.

Lemma forallb_word_set :
  forall l,
    forallb (fun d => xorb false (existsb (item_matches d) [ItemSet false SetWord])) l
    = forallb is_word l.
Proof.
  induction l as [|d l IH]; [reflexivity|].
  cbn [forallb]. rewrite IH, word_set. reflexivity.
Qed.

(** A placeholder is a greedy run of word characters, at least one, whose
    text the group keeps. *)
Lemma run_hole :
  forall i name pos rest caps k,
    run (hole i name) {| m_pos := pos; m_rest := rest; m_caps := caps |} k
    = greedy_run
        (fun d => xorb false (existsb (item_matches d) [ItemSet false SetWord]))
        1 pos rest caps
        (fun y => k (set_capture (Some (i, Some name))
                                 {| m_pos := pos; m_rest := rest; m_caps := caps |}
                                 y)).
Proof.
  intros i name pos rest caps k. unfold hole, word_plus.
  cbn [run group_list map m_rest].
  change (run (Class false [ItemSet false SetWord]))
    with (one_char (fun d => xorb false
                               (existsb (item_matches d) [ItemSet false SetWord]))).
  apply repeat_matcher_greedy. simpl. lia.
Qed.

(** The pattern of a route with one placeholder between two literal texts
    matches the fragments that are the first text, a run of word
    characters, and the second text, and the group captures the run. *)
Lemma run_one_hole :
  forall pre name post w,
    forallb is_word w = true -> w <> [] ->
    run (anchored (literal pre ++ hole 1 name :: literal post))
        {| m_pos := 0; m_rest := (chars pre ++ w ++ chars post)%list;
           m_caps := [] |} Some
    = Some {| m_pos := length (chars post)
                       + (length w + (length (chars pre) + 0));
              m_rest := []; m_caps := [(1, text w)] |}.
Proof.
  intros pre name post w Hw Hne. unfold anchored.
  rewrite run_sequence. cbn [run m_pos Nat.eqb].
  rewrite <- app_assoc, <- app_comm_cons. unfold literal.
  rewrite run_literal, run_sequence, run_hole.
  apply greedy_run_hit.
  - rewrite forallb_word_set. exact Hw.
  - destruct w; [contradiction|simpl; lia].
  - cbn [set_capture m_pos m_rest m_caps].
    rewrite Nat.add_sub, firstn_app, firstn_all, Nat.sub_diag.
    cbn [firstn]. rewrite app_nil_r.
    rewrite <- (app_nil_r (chars post)) at 2. rewrite run_literal.
    reflexivity.
  - intros p q Hp Hpost _.
    destruct (run _ _ Some) as [z|] eqn:E; [|reflexivity]. exfalso.
    destruct (run_literal_only _ _ _ _ _ E) as (rest & Hrest).
    cbn [set_capture m_rest] in Hrest.
    apply (f_equal (@length ascii)) in Hpost, Hrest.
    rewrite length_app in Hpost, Hrest.
    destruct p; [contradiction|simpl in Hpost; lia].
Qed.

Lemma run_one_hole_inv :
  forall pre name post l z,
    run (anchored (literal pre ++ hole 1 name :: literal post))
        {| m_pos := 0; m_rest := l; m_caps := [] |} Some = Some z ->
    exists w,
      l = (chars pre ++ w ++ chars post)%list /\
      forallb is_word w = true /\ w <> [].
Proof.
  intros pre name post l z H. unfold anchored in H.
  rewrite run_sequence in H. cbn [run m_pos Nat.eqb] in H.
  rewrite <- app_assoc, <- app_comm_cons in H. unfold literal in H.
  destruct (run_literal_only _ _ _ _ _ H) as (rest & Hl). cbn [m_rest] in Hl.
  subst l. rewrite run_literal, run_sequence, run_hole in H.
  destruct (greedy_run_inv _ _ _ _ _ _ _ H) as (w & q & Hrest & Hw & Hmin & Hc).
  destruct (run_literal_only _ _ _ _ _ Hc) as (rest' & Hq).
  cbn [set_capture m_rest] in Hq. subst q.
  cbn [set_capture m_pos m_rest m_caps] in Hc. rewrite run_literal in Hc.
  cbn [sequence run m_rest] in Hc. destruct rest'; [|discriminate].
  exists w. rewrite app_nil_r in Hrest. rewrite Hrest.
  rewrite forallb_word_set in Hw.
  repeat split; [exact Hw|]. intros ->. simpl in Hmin. lia.
Qed.

Lemma search_here :
  forall r pos rest y,
    run r {| m_pos := pos; m_rest := rest; m_caps := [] |} Some = Some y ->
    search r pos rest = Some {| f_index := pos; f_from := rest; f_end := y |}.
Proof.
  intros r pos rest y H. destruct rest; simpl; rewrite H; reflexivity.
Qed.

Lemma group_list_one_hole :
  forall pre name post,
    group_list (anchored (literal pre ++ hole 1 name :: literal post))
    = [(1, Some name)].
Proof.
  intros pre name post. unfold anchored.
  rewrite group_list_sequence. cbn [flat_map group_list app].
  rewrite !flat_map_app. cbn [flat_map group_list hole word_plus app].
  rewrite !flat_map_literal. reflexivity.
Qed.

(** What [route] compiles a template with one placeholder to. *)
Lemma one_hole_route :
  forall pre name post rx,
    route [pre; post] [VRegExp (param name)] = Return rx ->
    identifier name = true ->
    re_global rx = false /\ re_flags rx = "" /\
    parse (re_pattern rx)
    = Some (anchored (literal pre ++ hole 1 name :: literal post)).
Proof.
  intros pre name post rx H Hname.
  change [VRegExp (param name)] with (map to_value [SParam name]) in H.
  assert (Hid : Forall (fun n => identifier n = true)
                       (hole_names (tokens [pre; post] [SParam name])))
    by (repeat constructor; exact Hname).
  rewrite route_cases, (alternate_tokens _ _ Hid) in H.
  assert (Hrx : rx = new_RegExp ("^" ++ join (map token_text
                                     (tokens [pre; post] [SParam name])) ++ "$"))
    by (destruct (startsWith pre "#/"); [congruence|discriminate]).
  clear H. subst rx. split; [reflexivity|]. split; [reflexivity|].
  cbn [re_pattern new_RegExp].
  rewrite (parse_anchored_tokens _ Hid).
  - cbn [tokens token_of token_nodes]. rewrite !app_nil_r. reflexivity.
  - repeat constructor. intros [].
Qed.

Lemma word_chars :
  forall w, word w = true <-> forallb is_word (chars w) = true /\ chars w <> [].
Proof.
  intros w. unfold word. rewrite andb_true_iff, negb_true_iff. split.
  - intros (Hne & Hw). split; [exact Hw|]. intros H.
    destruct w; [discriminate|discriminate].
  - intros (Hw & Hne). split; [|exact Hw].
    destruct w; [contradiction|reflexivity].
Qed.

Lemma one_hole_match :
  forall pre name post rx u,
    route [pre; post] [VRegExp (param name)] = Return rx ->
    identifier name = true ->
    (forall w,
        u = pre ++ w ++ post -> word w = true ->
        String_match u rx
        = Some {| elements := [Some u; Some w];
                  groups := Some [(name, Some w)] |}) /\
    (forall m,
        String_match u rx = Some m ->
        exists w,
          u = pre ++ w ++ post /\ word w = true /\
          m = {| elements := [Some u; Some w];
                 groups := Some [(name, Some w)] |}).
Proof.
  intros pre name post rx u H Hname.
  destruct (one_hole_route pre name post rx H Hname)
    as (Hglobal & Hflags & Hparse).
  assert (Hfwd : forall w,
             u = pre ++ w ++ post -> word w = true ->
             String_match u rx
             = Some {| elements := [Some u; Some w];
                       groups := Some [(name, Some w)] |}).
  { intros w Hu Hw. apply word_chars in Hw. destruct Hw as (Hw & Hne).
    unfold String_match. rewrite Hflags, Hparse, Hglobal.
    unfold RegExpBuiltinExec.
    pose proof (search_here _ _ _ _ (run_one_hole pre name post (chars w) Hw Hne))
      as Hsearch.
    rewrite <- !chars_app, <- Hu in Hsearch.
    rewrite Hsearch. cbn [f_end m_caps].
    rewrite (search_anchored _ _ _ Hsearch), group_list_one_hole.
    unfold groups_object. rewrite group_list_one_hole.
    simpl. rewrite text_chars. reflexivity. }
  split; [exact Hfwd|].
  intros m Hm. pose proof Hm as Hm'.
  unfold String_match in Hm'. rewrite Hflags, Hparse, Hglobal in Hm'.
  unfold RegExpBuiltinExec in Hm'.
  destruct (search _ 0 (chars u)) as [f|] eqn:E; [|discriminate].
  destruct (search_within u _ (chars u) 0 [] eq_refl eq_refl f E)
    as (_ & (skipped & Hu & Hlen) & _ & Hrun).
  destruct (run_anchored _ _ _ Hrun) as (Hstart & _). simpl in Hstart.
  rewrite Hstart in Hlen, Hrun. destruct skipped; [|discriminate].
  simpl in Hu.
  destruct (run_one_hole_inv _ _ _ _ _ Hrun) as (w & Hfrom & Hw & Hne).
  assert (Hu' : u = pre ++ text w ++ post).
  { rewrite <- (text_chars u), Hu, Hfrom, <- (text_chars (pre ++ text w ++ post)).
    rewrite !chars_app, chars_text. reflexivity. }
  assert (Hword : word (text w) = true)
    by (apply word_chars; rewrite chars_text; split; assumption).
  exists (text w). split; [exact Hu'|]. split; [exact Hword|].
  rewrite (Hfwd (text w) Hu' Hword) in Hm. congruence.
Qed.

(** X18.  [route`pre${param(name)}post`], with an identifier for name,
    matches the fragments that are [pre], one or more letters, digits or
    underscores, and [post], and no other fragment; the match has the one
    group [name], which holds those characters. *)
Theorem route_with_placeholder :
  forall pre name post rx,
    route [pre; post] [VRegExp (param name)] = Return rx ->
    identifier name = true ->
    forall u,
      (String_match u rx <> None
       <-> exists w, u = pre ++ w ++ post /\ word w = true) /\
      (forall w,
          u = pre ++ w ++ post -> word w = true ->
          String_match u rx
          = Some {| elements := [Some u; Some w];
                    groups := Some [(name, Some w)] |}).
Proof.
  intros pre name post rx H Hname u.
  destruct (one_hole_match pre name post rx u H Hname) as (Hfwd & Hbwd).
  split; [split|exact Hfwd].
  - intros Hsome. destruct (String_match u rx) as [m|] eqn:E; [|congruence].
    destruct (Hbwd m eq_refl) as (w & Hu & Hw & _). exists w. auto.
  - intros (w & Hu & Hw). rewrite (Hfwd w Hu Hw). discriminate.
Qed.

(** [route`#/users/${param("id")}/edit`] and [#/users/42/edit]. *)
Lemma route_with_placeholder_witness :
  route ["#/users/"; "/edit"] [VRegExp (param "id")]
  = Return (new_RegExp "^#/users/(?<id>\w+)/edit$") /\
  String_match "#/users/42/edit" (new_RegExp "^#/users/(?<id>\w+)/edit$")
  = Some {| elements := [Some "#/users/42/edit"; Some "42"];
            groups := Some [("id", Some "42")] |}.
Proof.
  split; [reflexivity|].
  apply (proj2 (route_with_placeholder "#/users/" "id" "/edit"
                  (new_RegExp "^#/users/(?<id>\w+)/edit$") eq_refl eq_refl
                  "#/users/42/edit") "42"); reflexivity.
Defined.

(** X19.  When a resolution selects a route compiled from
    [route`pre${param(name)}post`], the fragment is [pre], a run of word
    characters and [post], and the params are that run under [name], and
    nothing else. *)
Theorem resolve_placeholder_route :
  forall (r : Router) pre name post rx ref u,
    route [pre; post] [VRegExp (param name)] = Return rx ->
    identifier name = true ->
    route_ (resolve String_match r u) = Some (RRegExp ref rx) ->
    exists w,
      u = pre ++ w ++ post /\ word w = true /\
      params (resolve String_match r u) = [(name, Some w)].
Proof.
  intros r pre name post rx ref u H Hname Hsel.
  unfold resolve in *. cbn [route_ params] in *.
  destruct (for_entries_selected String_match u (handlers r) ref rx Hsel)
    as (m & Hm & Hparams).
  destruct (proj2 (one_hole_match pre name post rx u H Hname) m Hm)
    as (w & Hu & Hw & ->).
  exists w. rewrite Hparams. auto.
Qed.

Lemma resolve_placeholder_route_witness :
  exists w,
    "#/users/7" = "#/users/" ++ w ++ "" /\ word w = true /\
    params (resolve String_match demo_router "#/users/7") = [("id", Some w)].
Proof.
  exact (resolve_placeholder_route demo_router "#/users/" "id" "" users_pattern
           1 "#/users/7" eq_refl eq_refl eq_refl).
Defined.

(** ** Listeners and signals *)

Lemma connect_router :
  forall str_match throws w,
    router (connect str_match throws w) = router w /\
    listeners (connect str_match throws w)
    = (if aborted (router w) then listeners w else S (listeners w)).
Proof.
  intros str_match throws w. rewrite connect_cases.
  destruct (configured (router w) && String.eqb (location_hash w) "");
    split; reflexivity.
Qed.

(** X20.  [connect] has no guard against being called again: on a router
    that was not disconnected, every call attaches one more listener, and a
    navigation signal then runs one resolution of the current fragment for
    each of them. *)
Theorem connect_again_adds_listener :
  forall str_match throws (w : World) (n : nat),
    aborted (router w) = false ->
    let w' := Nat.iter n (connect str_match throws) w in
    listeners w' = n + listeners w /\
    history (popstate str_match throws w')
    = (history w'
       ++ repeat (mkResolution Signal
                    (resolve str_match (router w) (location_hash w'))
                    (exec str_match throws (router w) (location_hash w')))
                 (n + listeners w))%list.
Proof.
  intros str_match throws w n Ha w'.
  assert (H : router w' = router w /\ listeners w' = n + listeners w).
  { subst w'. induction n as [|n (IHr & IHl)]; [split; reflexivity|].
    change (Nat.iter (S n) (connect str_match throws) w)
      with (connect str_match throws (Nat.iter n (connect str_match throws) w)).
    destruct (connect_router str_match throws
                (Nat.iter n (connect str_match throws) w)) as (Hr & Hl).
    rewrite Hr, Hl, IHr, Ha, IHl. split; reflexivity. }
  destruct H as (Hr & Hl). split; [exact Hl|].
  unfold popstate. cbn [history].
  destruct (iter_run_exec str_match throws (listeners w') w')
    as (_ & _ & _ & _ & Hh).
  rewrite Hh, Hr, Hl. reflexivity.
Qed.

(** The example router connected twice at [#/home]: two resolutions by
    activation, and two more for one signal. *)
Lemma connect_again_adds_listener_witness :
  let w' := Nat.iter 2 (connect String_match no_throw) (page "#/home" demo_router) in
  listeners w' = 2 /\
  map (fun x => (res_cause x, map callee (calls (res_outcome x))))
      (history (popstate String_match no_throw w'))
  = [(Activation, [1]); (Activation, [1]); (Signal, [1]); (Signal, [1])].
Proof.
  destruct (connect_again_adds_listener String_match no_throw
              (page "#/home" demo_router) 2 eq_refl) as (Hl & Hh).
  split; [exact Hl|]. rewrite Hh. reflexivity.
Defined.

Lemma step_listeners :
  forall str_match throws (w : World) (a : Action),
    activation a = false ->
    listeners (step str_match throws w a) = listeners w /\
    length (history (step str_match throws w a))
    = length (history w)
      + listeners w * deliveries [a] /\
    by_signal (history (step str_match throws w a))
    = (by_signal (history w)
       ++ skipn (length (history w)) (history (step str_match throws w a)))%list.
Proof.
  intros str_match throws w a Ha.
  destruct a; try discriminate Ha; cbn [step deliveries filter length];
    try (rewrite Nat.mul_0_r, Nat.add_0_r, skipn_all, app_nil_r;
         repeat split; reflexivity).
  unfold popstate. cbn [listeners history].
  destruct (iter_run_exec str_match throws (listeners w) w)
    as (_ & Hl & _ & _ & Hh).
  rewrite Hl, Hh, length_app, repeat_length, Nat.mul_1_r.
  split; [reflexivity|]. split; [reflexivity|].
  rewrite by_signal_app. f_equal.
  rewrite skipn_app, skipn_all, Nat.sub_diag. simpl.
  unfold by_signal. generalize (listeners w). clear.
  intros n. induction n as [|n IH]; [reflexivity|].
  simpl. f_equal. exact IH.
Qed.

(** X21.  While neither [connect] nor [disconnect] is called, the number of
    listeners stays what it is, and resolutions are started by delivered
    navigation signals only, one for each listener and signal: no call of
    [on], [off], [fallback] or [afterEach] and no change of the fragment
    starts one. *)
Theorem resolutions_by_signal_only :
  forall str_match throws (actions : list Action) (w : World),
    forallb (fun a => negb (activation a)) actions = true ->
    let w' := steps str_match throws w actions in
    listeners w' = listeners w /\
    length (history w')
    = length (history w) + listeners w * deliveries actions /\
    length (by_signal (history w'))
    = length (by_signal (history w)) + listeners w * deliveries actions.
Proof.
  intros str_match throws actions. unfold steps.
  induction actions as [|a actions IH]; intros w H; cbn [fold_left].
  - cbn [deliveries filter length]. rewrite Nat.mul_0_r, !Nat.add_0_r. auto.
  - simpl in H. apply andb_prop in H. destruct H as (Ha & Hrest).
    apply negb_true_iff in Ha.
    destruct (step_listeners str_match throws w a Ha) as (Hl & Hh & Hs).
    destruct (IH (step str_match throws w a) Hrest) as (Il & Ih & Is).
    rewrite Il, Ih, Is, Hl, Hh, Hs, length_app, length_skipn, Hh.
    assert (Hd : deliveries (a :: actions) = deliveries [a] + deliveries actions).
    { unfold deliveries. cbn [filter]. destruct a; reflexivity. }
    rewrite Hd. repeat split; lia.
Qed.

(** The example router, connected at [#/home]: two navigations with a call
    of [off] in between. *)
Lemma resolutions_by_signal_only_witness :
  let w := connect String_match no_throw (page "#/home" demo_router) in
  let w' := steps String_match no_throw w
                  (navigate "#/users/7"
                     ++ Off (One (RString "#/home")) :: navigate "#/home") in
  listeners w' = 1 /\ length (history w') = 3 /\
  length (by_signal (history w')) = 2.
Proof.
  exact (resolutions_by_signal_only String_match no_throw
           (navigate "#/users/7"
              ++ Off (One (RString "#/home")) :: navigate "#/home")
           (connect String_match no_throw (page "#/home" demo_router))
           eq_refl).
Defined.

(** ** Handlers that change the router while they run *)

Lemma calls_of_none :
  forall o cs,
    (forall c, In c cs -> call_origin c = OfAfterEach) -> o <> OfAfterEach ->
    calls_of o cs = [].
Proof.
  intros o cs H Ho. induction cs as [|c cs IH]; [reflexivity|]. simpl.
  rewrite (H c (or_introl eq_refl)).
  destruct o; try congruence; apply IH; intros c' Hc'; apply H; right; exact Hc'.
Qed.

Lemma calls_of_app :
  forall o a b, calls_of o (a ++ b) = (calls_of o a ++ calls_of o b)%list.
Proof. intros o a b. apply filter_app. Qed.

(** X22.  What a handler does to the router while it runs does not reach
    the resolution that called it: the route and the params were settled
    before the first call, so every call of the resolution receives the
    [ResolvedRoute] built from the registry as it was, and the route handler
    or fallback that is called is the one the registry and the fallback slot
    held then. *)
Theorem calling_back_keeps_resolved :
  forall str_match throws body (r : Router) (u : string),
    let made := calls (snd (exec_calling_back str_match throws body r u)) in
    (forall c, In c made -> argument c = resolve str_match r u) /\
    calls_of OfRoute made
    = calls_of OfRoute (calls (exec str_match throws r u)) /\
    calls_of OfFallback made
    = calls_of OfFallback (calls (exec str_match throws r u)).
Proof.
  intros str_match throws body r u made. subst made.
  unfold exec_calling_back, exec. cbv zeta. rewrite make_calls_app.
  set (first := make_calls throws (call_handler r _ _)).
  assert (Hfirst : forall c, In c (calls first) ->
                             argument c = resolve str_match r u).
  { intros c Hc. apply (proj1 (make_calls_sound throws _)) in Hc.
    exact (proj2 (call_handler_origin _ _ _ _ Hc)). }
  destruct (raised first); cbn [snd calls].
  - repeat split; try reflexivity. exact Hfirst.
  - set (r1 := fold_left (run_body body) (calls first) r).
    assert (Hsecond : forall r' c,
               In c (calls (make_calls throws
                              (call_afterEach r' (resolve str_match r u)))) ->
               call_origin c = OfAfterEach /\ argument c = resolve str_match r u).
    { intros r' c Hc. apply (proj1 (make_calls_sound throws _)) in Hc.
      exact (call_afterEach_origin _ _ _ Hc). }
    assert (Hnone : forall o r',
               o <> OfAfterEach ->
               calls_of o (calls (make_calls throws
                                    (call_afterEach r' (resolve str_match r u))))
               = []).
    { intros o r' Ho. apply calls_of_none; [|exact Ho].
      intros c Hc. exact (proj1 (Hsecond _ c Hc)). }
    rewrite !calls_of_app, !Hnone by discriminate.
    repeat split; try reflexivity.
    intros c Hc. apply in_app_or in Hc. destruct Hc as [Hc|Hc].
    + exact (Hfirst c Hc).
    + exact (proj2 (Hsecond _ c Hc)).
Qed.

(** ** The test suite of the library, replayed *)

Example test_route_simple : route_source ["#/foo"] [] = Some "^#\/foo$".
Proof. reflexivity. Qed.

Example test_route_string_value :
  route_source ["#/foo/"; "/baz"] [VString "bar"] = Some "^#\/foo\/bar\/baz$".
Proof. reflexivity. Qed.

Example test_route_regex_value :
  route_source ["#/foo/"; "/baz"] [VRegExp (new_RegExp "bar")]
  = Some "^#\/foo\/bar\/baz$".
Proof. reflexivity. Qed.

Example test_route_escapes_template :
  route_source ["#/foo/*/bar"] [] = Some "^#\/foo\/\*\/bar$".
Proof. reflexivity. Qed.

Example test_route_escapes_string_value :
  route_source ["#/foo/"; "/bar"] [VString "*"] = Some "^#\/foo\/\*\/bar$".
Proof. reflexivity. Qed.

Example test_route_keeps_regex_value :
  route_source ["#/foo/"; "/bar"] [VRegExp (new_RegExp ".*")]
  = Some "^#\/foo\/.*\/bar$".
Proof. reflexivity. Qed.

Example test_route_matches_full_value :
  String_match "...#/foo/bar" (new_RegExp "^#/foo/bar$") = None /\
  String_match "#/foo/bar..." (new_RegExp "^#/foo/bar$") = None /\
  String_match "#/foo/bar" (new_RegExp "^#/foo/bar$") <> None /\
  route ["#/foo/bar"] [] = Return (new_RegExp "^#/foo/bar$").
Proof. repeat split. discriminate. Qed.

Example test_route_throws :
  route_source ["/foo"] [] = None /\ route_source ["foo"] [] = None.
Proof. split; reflexivity. Qed.

Example test_param : source (param "foo") = "(?<foo>\w+)".
Proof. reflexivity. Qed.

(** "calls the handler for a simple route" and "does not call event
    handlers when not connected". *)
Example test_simple_route :
  let r := on (One (RString "#/foo")) 1 (new_Router None) in
  length (calls_to 1 (steps String_match no_throw (page "" r)
                            (Connect :: navigate "#/foo")))
  = 1 /\
  length (calls_to 1 (steps String_match no_throw (page "" r)
                            (navigate "#/foo"))) = 0.
Proof. split; reflexivity. Qed.

(** "provides the parameters to the handler", with the url and the route. *)
Example test_parameters :
  let k := RRegExp 1 (new_RegExp "^#/foo/(?<id>\w+)$") in
  let r := on (One k) 1 (new_Router None) in
  calls_to 1 (steps String_match no_throw (page "" r) (Connect :: navigate "#/foo/bar"))
  = [mkResolved "#/foo/bar" [("id", Some "bar")] (Some k)].
Proof. reflexivity. Qed.

(** "calls the correct route when multiple routes have been registered". *)
Example test_multiple_routes :
  let r := fallback 4
             (on (One (RRegExp 1 (new_RegExp "^/baz$"))) 3
                (on (One (RString "#/bar")) 2
                   (on (One (RString "#/foo")) 1 (new_Router (Some "#/bar"))))) in
  let w := steps String_match no_throw (page "" r) (Connect :: tick) in
  map (fun h => length (calls_to h w)) [1; 2; 3; 4] = [0; 1; 0; 0].
Proof. reflexivity. Qed.

(** "does not set the initial location if a location exists". *)
Example test_existing_location :
  let r := on (One (RString "#/foo")) 1 (new_Router (Some "#/foo")) in
  let w := steps String_match no_throw (page "#/bar" r) (Connect :: tick) in
  location_hash w = "#/bar" /\ calls_to 1 w = [].
Proof. split; reflexivity. Qed.

(** "calls the after each handler when a route matched". *)
Example test_afterEach :
  let fooRoute := RRegExp 1 (new_RegExp "^#/foo/(?<bar>\w+)$") in
  let r := afterEach 2 (on (One fooRoute) 1 (new_Router None)) in
  route ["#/foo/"; ""] [VRegExp (param "bar")]
  = Return (new_RegExp "^#/foo/(?<bar>\w+)$") /\
  calls_to 2 (steps String_match no_throw (page "" r) (Connect :: navigate "#/foo/0"))
  = [mkResolved "" [] None;
     mkResolved "#/foo/0" [("bar", Some "0")] (Some fooRoute)].
Proof. split; reflexivity. Qed.

(** "stops handling multiple routes". *)
Example test_off :
  let r := on (Many [RString "#/foo"; RString "#/bar"]) 1 (new_Router None) in
  let w := steps String_match no_throw (page "" r)
                 (Connect :: navigate "#/foo" ++ navigate "#/bar")%list in
  length (calls_to 1 w) = 2 /\
  length (calls_to 1
            (steps String_match no_throw w
                   (Off (Many [RString "#/foo"; RString "#/bar"])
                      :: navigate "#/foo" ++ navigate "#/bar")%list))
  = 2.
Proof. split; reflexivity. Qed.

(** "disconnects". *)
Example test_disconnect :
  let r := on (One (RString "#/bar")) 2
             (on (One (RString "#/foo")) 1 (new_Router (Some "#/foo"))) in
  let w := steps String_match no_throw (page "" r) (Connect :: navigate "#/foo") in
  length (calls_to 1 w) = 1 /\
  calls_to 2 (steps String_match no_throw w (Disconnect :: navigate "#/bar")) = [].
Proof. split; reflexivity. Qed.

(** ** Classes with ranges *)

(** A range of a class can have escaped ends: the class of the first group
    below is the range from [!] to [/], which holds [#]. *)
Example class_range_with_escaped_end :
  parse "[!-\/]" = Some (Class false [ItemRange "!" "/"]) /\
  parse "[\.-9]" = Some (Class false [ItemRange "." "9"]) /\
  parse "[\d-a]"
  = Some (Class false [ItemSet false SetDigit; ItemChar "-"; ItemChar "a"]) /\
  String_match "#/!#" (new_RegExp "^#\/(?<x>[!-\/]+)(?<y>.*)$")
  = Some {| elements := [Some "#/!#"; Some "!#"; Some ""];
            groups := Some [("x", Some "!#"); ("y", Some "")] |}.
Proof. repeat split. Qed.
